(** * wordcounter: external-memory word counting (cmd/main.go)

    A shallow embedding of [cmd/main.go] and the properties of its two
    phases: the input phase ([processInputFile], [flushToTempFile]) and the
    batched k-way merge ([mergeInBatches], [mergeBatch], [parseLine],
    [flushBufferToWriter], the [fileEntryHeap] driven by [container/heap]).

    Modelling choices.
    - A Go [string] is a [string] of bytes; [<] on strings is the bytewise
      lexicographic order ([String.ltb]).
    - A Go [int] is a 64-bit two's complement integer: a [Z] kept in
      [[-2^63, 2^63)] by [wrap]; [+=] and [++] wrap around.
    - A [map[string]int] is a [gmap string Z]; reading an absent key gives 0.
    - A file is the list of its lines, in order.  [fmt.Fprintf "%s\t%d\n"]
      appends one line and [bufio.Scanner] yields the lines back one by one.
      This is what the program sees as long as no line reaches the 64 KiB
      limit of the scanner, which is assumed.  [os.CreateTemp] gives every
      run a fresh name, so a run is identified with its content.
    - Failures of the file system ([os.Open], [os.CreateTemp], writes) end
      the program and are left out.
    - [MAX_WORDS_IN_MEMORY] is a [nat]: [main] rejects values [<= 0] before
      any other function runs.
    - A loop that the code bounds by data ([up], [down], the merge loop, a
      round of batches) takes its bound as fuel computed from that data;
      the loop of [mergeInBatches], which need not end, takes its fuel from
      the caller. *)

From Stdlib Require Import ZArith Lia Ascii String List Sorting.Sorted.
From stdpp Require Import base numbers list strings sorting gmap fin_maps.

Local Open Scope Z_scope.

(** * Part I: the program *)

(** ** Go's [int] *)

Module GoInt.

Definition minInt : Z := - 2 ^ 63.
Definition maxInt : Z := 2 ^ 63 - 1.

(** Two's complement wrap-around of a mathematical integer. *)
Definition wrap (z : Z) : Z := (z + 2 ^ 63) mod 2 ^ 64 - 2 ^ 63.

(** [a + b] on [int]. *)
Definition add (a b : Z) : Z := wrap (a + b).

Definition inRange (z : Z) : Prop := minInt <= z <= maxInt.

End GoInt.

(** ** Strings and their order *)

Module Str.

Definition tab : ascii := "009"%char.

(** Go's [s < t] on strings. *)
Definition lt (s t : string) : Prop := String.ltb s t = true.

Global Instance lt_dec : RelDecision lt.
Proof. intros s t. unfold lt. apply _. Defined.


End Str.

(** ** The record format: [strings.SplitN], [strconv.Atoi], ["%s\t%d"] *)

Module Record.

Import GoInt.

(** [strings.Contains(s, "\t")]. *)
Fixpoint containsTab (s : string) : bool :=
  match s with
  | EmptyString => false
  | String c r => if decide (c = Str.tab) then true else containsTab r
  end.

(** [strings.Cut(s, "\t")]: the text before and after the first tab. *)
Fixpoint cutTab (s : string) : option (string * string) :=
  match s with
  | EmptyString => None
  | String c r =>
      if decide (c = Str.tab) then Some (EmptyString, r)
      else match cutTab r with
           | Some (a, b) => Some (String c a, b)
           | None => None
           end
  end.

(** [strings.SplitN(s, "\t", 2)]: one part when [s] has no tab, otherwise
    the two parts around the first tab. *)
Definition SplitN2 (s : string) : list string :=
  match cutTab s with
  | Some (a, b) => [a; b]
  | None => [s]
  end.

Inductive NumError := ErrSyntax | ErrRange.

Definition digitVal (c : ascii) : option Z :=
  let n := Z.of_N (N_of_ascii c) - 48 in
  if decide (0 <= n <= 9) then Some n else None.

(** The digit loop of [strconv]: [n = n*10 + digit], on unbounded integers;
    the range check is made by the caller. *)
Fixpoint parseDigits (s : string) (acc : Z) : option Z :=
  match s with
  | EmptyString => Some acc
  | String c r =>
      match digitVal c with
      | Some d => parseDigits r (acc * 10 + d)
      | None => None
      end
  end.

(** The digits after the sign, and the range check of [strconv.ParseInt]. *)
Definition parseBody (neg : bool) (body : string) : Z * option NumError :=
  match body with
  | EmptyString => (0, Some ErrSyntax)
  | _ =>
      match parseDigits body 0 with
      | None => (0, Some ErrSyntax)
      | Some n =>
          if neg then
            if decide (2 ^ 63 < n) then (minInt, Some ErrRange)
            else (- n, None)
          else
            if decide (2 ^ 63 <= n) then (maxInt, Some ErrRange)
            else (n, None)
      end
  end.

(** [strconv.Atoi]: an optional sign and at least one decimal digit.  A
    syntax error gives 0; a value outside [int] gives the nearest bound
    (both with a non-nil error, which [parseLine] drops). *)
Definition Atoi (s : string) : Z * option NumError :=
  match s with
  | EmptyString => (0, Some ErrSyntax)
  | String c r =>
      if decide (c = "-"%char) then parseBody true r
      else if decide (c = "+"%char) then parseBody false r
      else parseBody false s
  end.

(** The strings [Atoi] accepts as numbers: [[+-]?[0-9]+]. *)
Definition allDigits (s : string) : bool :=
  match parseDigits s 0 with Some _ => true | None => false end.

Definition isNumeric (s : string) : bool :=
  match s with
  | EmptyString => false
  | String c r =>
      let body := if decide (c = "-"%char \/ c = "+"%char) then r else s in
      match body with
      | EmptyString => false
      | _ => allDigits body
      end
  end.

Definition digitChar (d : Z) : ascii := ascii_of_N (Z.to_N (48 + d)).

(** The decimal digits of [n >= 0], most significant first, put before
    [acc]; [fuel] bounds the number of digits. *)
Fixpoint digitsAux (fuel : nat) (n : Z) (acc : string) : string :=
  match fuel with
  | O => acc
  | S f =>
      let acc' := String (digitChar (n mod 10)) acc in
      if decide (n < 10) then acc' else digitsAux f (n / 10) acc'
  end.

Definition formatUint (n : Z) : string :=
  digitsAux (S (Z.to_nat (Z.log2 n))) n EmptyString.

(** [%d]. *)
Definition formatInt (z : Z) : string :=
  if decide (z < 0) then String "-"%char (formatUint (- z)) else formatUint z.

(** A record of a run: the token and its count. *)
Definition record : Type := string * Z.

(** The text of ["%s\t%d\n"] without its newline: one line of a run. *)
Definition formatRecord (r : record) : string :=
  r.1 +:+ String Str.tab (formatInt r.2).

(** [parseLine]. *)
Definition parseLine (line : string) : record :=
  match SplitN2 line with
  | [w; c] => (w, (Atoi c).1)
  | _ => (EmptyString, 0)
  end.

End Record.

(** ** The merge heap: [fileEntry], [fileEntryHeap] and [container/heap] *)

Record fileEntry := mkEntry { word : string; count : Z; fileIdx : nat }.

Global Instance fileEntry_eq_dec : EqDecision fileEntry.
Proof. solve_decision. Defined.

(** The methods of [fileEntryHeap] ([heap.Interface]). *)
Module fileEntryHeap.

Local Open Scope nat_scope.

Abbreviation t := (list fileEntry).

Definition Len (h : t) : nat := length h.

Definition Less (h : t) (i j : nat) : bool :=
  match h !! i, h !! j with
  | Some a, Some b => String.ltb (word a) (word b)
  | _, _ => false
  end.

Definition Swap (h : t) (i j : nat) : t :=
  match h !! i, h !! j with
  | Some a, Some b => <[i := b]> (<[j := a]> h)
  | _, _ => h
  end.

Definition Push (h : t) (x : fileEntry) : t := h ++ [x].

(** [old[n-1]] and [old[:n-1]]; [None] is the index panic on an empty heap. *)
Definition Pop (h : t) : option (fileEntry * t) :=
  let n := length h in
  match h !! (n - 1) with
  | Some item => Some (item, take (n - 1) h)
  | None => None
  end.

End fileEntryHeap.

(** [container/heap] of the Go library, over [fileEntryHeap].  The loops of
    [up] and [down] run at most [fuel] times; [Push] and [Pop] give them the
    length of the heap, which bounds the height they walk. *)
Module heap.

Local Open Scope nat_scope.

Import fileEntryHeap.

Fixpoint up (fuel : nat) (h : t) (j : nat) : t :=
  match fuel with
  | O => h
  | S f =>
      let i := (j - 1) / 2 in
      if decide (i = j) then h
      else if negb (Less h j i) then h
      else up f (Swap h i j) i
  end.

Fixpoint down (fuel : nat) (h : t) (i n : nat) : t :=
  match fuel with
  | O => h
  | S f =>
      let j1 := 2 * i + 1 in
      if decide (n <= j1) then h
      else
        let j2 := j1 + 1 in
        let j := if decide (j2 < n) then (if Less h j2 j1 then j2 else j1)
                 else j1 in
        if negb (Less h j i) then h
        else down f (Swap h i j) j n
  end.

(** [heap.Init]: [for i := n/2 - 1; i >= 0; i-- { down(h, i, n) }]. *)
Definition Init (h : t) : t :=
  let n := Len h in
  foldl (fun h i => down n h i n) h (reverse (seq 0 (n / 2))).

(** [heap.Push]. *)
Definition Push (h : t) (x : fileEntry) : t :=
  let h' := fileEntryHeap.Push h x in
  up (Len h') h' (Len h' - 1).

(** [heap.Pop]. *)
Definition Pop (h : t) : option (fileEntry * t) :=
  let n := Len h - 1 in
  let h1 := Swap h 0 n in
  let h2 := down n h1 0 n in
  fileEntryHeap.Pop h2.

End heap.

(** ** [map[string]int] and the sorted flush *)

Module Table.

Import Record.

Abbreviation t := (gmap string Z).

(** [m[w]]: the zero value for an absent key. *)
Definition get (m : t) (w : string) : Z := default 0 (m !! w).

(** [m[w] += c]. *)
Definition incr (m : t) (w : string) (c : Z) : t :=
  <[w := GoInt.add (get m w) c]> m.

(** [for word := range m { words = append(words, word) }; sort.Strings(words)].
    Go ranges over a map in no fixed order; the keys are distinct, so the
    sorted slice does not depend on it. *)
Definition sortedKeys (m : t) : list string :=
  merge_sort String.le (map_to_list m).*1.

(** The [(word, m[word])] pairs handed to [Fprintf], in the order written. *)
Definition flushRecords (m : t) : list record :=
  (fun w => (w, get m w)) <$> sortedKeys m.

(** The lines written by flushing [m]. *)
Definition flushLines (m : t) : list string :=
  formatRecord <$> flushRecords m.

(** [m[w] += c] for each record [(w, c)] of a sequence, in order. *)
Definition accumulate (m : t) (rs : list record) : t :=
  foldl (fun m r => incr m r.1 r.2) m rs.

End Table.

(** A run (a temporary file): its lines. *)
Abbreviation run := (list string).

(** ** Input phase: [processInputFile] and [flushToTempFile] *)

(** [flushToTempFile]: the content of the new temporary file. *)
Definition flushToTempFile (wordCount : Table.t) : run :=
  Table.flushLines wordCount.

Module Input.

(** The variables of [processInputFile]. *)
Record state := mkState { wordCount : Table.t; tempFiles : list run }.

(** [wordCount[word]++]. *)
Definition countWord (word : string) (st : state) : state :=
  mkState (Table.incr (wordCount st) word 1) (tempFiles st).

(** [if len(wordCount) >= MAX_WORDS_IN_MEMORY { flush; append; reset }]. *)
Definition spill (MAX_WORDS_IN_MEMORY : nat) (st : state) : state :=
  if decide (MAX_WORDS_IN_MEMORY <= size (wordCount st))%nat
  then mkState ∅ (tempFiles st ++ [flushToTempFile (wordCount st)])
  else st.

Section WithTrimSpace.

(** [strings.TrimSpace] of the Go library.  The program only tests its
    result against the empty string and uses it as the token, so the
    development is parametric in it. *)
Variable TrimSpace : string -> string.

Variable MAX_WORDS_IN_MEMORY : nat.

(** One iteration of [for scanner.Scan()]. *)
Definition step (st : state) (line : string) : state :=
  let word := TrimSpace line in
  if decide (word = EmptyString) then st
  else spill MAX_WORDS_IN_MEMORY (countWord word st).

Definition loop (lines : list string) : state :=
  foldl step (mkState ∅ []) lines.

(** [processInputFile], on the lines the scanner yields. *)
Definition processInputFile (lines : list string) : list run :=
  let st := loop lines in
  if decide (0 < size (wordCount st))%nat
  then tempFiles st ++ [flushToTempFile (wordCount st)]
  else tempFiles st.

(** Every value [wordCount] takes while [lines] are read from [st]: after
    each increment and after each spill check. *)
Fixpoint tablesFrom (st : state) (lines : list string) : list Table.t :=
  match lines with
  | [] => []
  | line :: rest =>
      let word := TrimSpace line in
      if decide (word = EmptyString) then tablesFrom st rest
      else
        let st1 := countWord word st in
        let st2 := spill MAX_WORDS_IN_MEMORY st1 in
        wordCount st1 :: wordCount st2 :: tablesFrom st2 rest
  end.

Definition tables (lines : list string) : list Table.t :=
  ∅ :: tablesFrom (mkState ∅ []) lines.

(** The tokens of the input: the trimmed lines that are not empty. *)
Definition tokens (lines : list string) : list string :=
  filter (fun w => w <> EmptyString) (TrimSpace <$> lines).

End WithTrimSpace.

(** [strings.TrimSpace] on ASCII text: cut the leading and trailing
    ['\t' '\n' '\v' '\f' '\r' ' ']. *)
Definition asciiSpace (c : ascii) : bool :=
  match c with
  | "009" | "010" | "011" | "012" | "013" | " " => true
  | _ => false
  end%char.

Fixpoint trimLeft (s : string) : string :=
  match s with
  | EmptyString => EmptyString
  | String c r => if asciiSpace c then trimLeft r else s
  end.

Fixpoint trimRight (s : string) : string :=
  match s with
  | EmptyString => EmptyString
  | String c r =>
      match trimRight r with
      | EmptyString => if asciiSpace c then EmptyString else String c EmptyString
      | r' => String c r'
      end
  end.

Definition TrimSpaceASCII (s : string) : string := trimRight (trimLeft s).

End Input.

(** ** Merge phase: [mergeBatch] *)

Module Merge.

Import Record.

(** The variables of [mergeBatch]: for each scanner the lines it has not
    yet read, the heap, the output buffer, and the lines written so far. *)
Record state := mkState {
  readers : list run;
  h : fileEntryHeap.t;
  wordBuffer : Table.t;
  writer : run
}.

(** [if scanner.Scan() { word, count := parseLine(scanner.Text());
    heap.Push(h, &fileEntry{word, count, i}) }] on [readers[i]]. *)
Definition scanPush (i : nat) (rs : list run) (hp : fileEntryHeap.t)
    : list run * fileEntryHeap.t :=
  match rs !! i with
  | Some (line :: rest) =>
      let '(w, c) := parseLine line in
      (<[i := rest]> rs, heap.Push hp (mkEntry w c i))
  | _ => (rs, hp)
  end.

(** The first loop of [mergeBatch]: open every file and push its first
    record. *)
Definition openAll (tempFiles : list run) : list run * fileEntryHeap.t :=
  foldl (fun '(rs, hp) i => scanPush i rs hp)
        (tempFiles, heap.Init []) (seq 0 (length tempFiles)).

(** [flushBufferToWriter]: the writer after the sorted buffer is appended. *)
Definition flushBufferToWriter (buffer : Table.t) (w : run) : run :=
  w ++ Table.flushLines buffer.

(** [if _, ok := wordBuffer[word]; !ok && len(wordBuffer) >= MAX { flush;
    wordBuffer = make(map[string]int) }]. *)
Definition makeRoom (MAX_WORDS_IN_MEMORY : nat) (w : string)
    (buf : Table.t) (out : run) : Table.t * run :=
  if decide (buf !! w = None /\ (MAX_WORDS_IN_MEMORY <= size buf)%nat)
  then (∅, flushBufferToWriter buf out)
  else (buf, out).

Section WithMax.

Variable MAX_WORDS_IN_MEMORY : nat.

(** One iteration of [for h.Len() > 0]. *)
Definition step (st : state) : state :=
  match heap.Pop (h st) with
  | None => st
  | Some (entry, hp) =>
      let '(buf, out) :=
        makeRoom MAX_WORDS_IN_MEMORY (word entry) (wordBuffer st) (writer st) in
      let buf' := Table.incr buf (word entry) (count entry) in
      let '(rs, hp') := scanPush (fileIdx entry) (readers st) hp in
      mkState rs hp' buf' out
  end.

(** [for h.Len() > 0 { ... }], at most [fuel] iterations. *)
Fixpoint loop (fuel : nat) (st : state) : state :=
  match fuel with
  | O => st
  | S f =>
      if decide (0 < fileEntryHeap.Len (h st))%nat then loop f (step st)
      else st
  end.

(** Each iteration pops one entry and pushes at most one, read from a
    scanner: the entries in the heap and the unread lines bound the number
    of iterations. *)
Definition measure (st : state) : nat :=
  (length (h st) + length (concat (readers st)))%nat.

(** [mergeBatch]: the content of the merged file. *)
Definition mergeBatch (tempFiles : list run) : run :=
  let '(rs, hp) := openAll tempFiles in
  let st0 := mkState rs hp ∅ [] in
  let st := loop (measure st0) st0 in
  if decide (0 < size (wordBuffer st))%nat
  then flushBufferToWriter (wordBuffer st) (writer st)
  else writer st.

(** Every value [wordBuffer] takes in the loop from [st]: after the flush
    check and after the addition of each iteration. *)
Fixpoint buffersFrom (fuel : nat) (st : state) : list Table.t :=
  match fuel with
  | O => []
  | S f =>
      match heap.Pop (h st) with
      | None => []
      | Some (entry, _) =>
          let st' := step st in
          (makeRoom MAX_WORDS_IN_MEMORY (word entry)
                    (wordBuffer st) (writer st)).1
            :: wordBuffer st' :: buffersFrom f st'
      end
  end.

Definition buffers (tempFiles : list run) : list Table.t :=
  let '(rs, hp) := openAll tempFiles in
  let st0 := mkState rs hp ∅ [] in
  ∅ :: buffersFrom (measure st0) st0.

End WithMax.

End Merge.

(** ** Merge scheduling: [mergeInBatches] and [main] *)

Module Scheduler.

(** How a call ends: with a value, with a run-time panic, or still running
    when the fuel of the model is spent. *)
Inductive outcome (A : Type) :=
  | Returns (a : A)
  | Panics
  | OutOfFuel.
Arguments Returns {A} a.
Arguments Panics {A}.
Arguments OutOfFuel {A}.

Section WithMax.

Variable MAX_WORDS_IN_MEMORY : nat.

(** [for i := 0; i < len(files); i += MAX { batch := files[i:min(i+MAX,
    len)]; merged := mergeBatch(batch); next = append(next, merged) }].
    For [MAX >= 1] every iteration consumes at least one file, so
    [length files] iterations are enough. *)
Fixpoint roundFrom (fuel : nat) (files : list run) : list run :=
  match fuel with
  | O => []
  | S f =>
      match files with
      | [] => []
      | _ =>
          Merge.mergeBatch MAX_WORDS_IN_MEMORY (take MAX_WORDS_IN_MEMORY files)
            :: roundFrom f (drop MAX_WORDS_IN_MEMORY files)
      end
  end.

Definition round (files : list run) : list run :=
  roundFrom (length files) files.

(** [return files[0], nil]: indexing an empty slice panics. *)
Definition first (files : list run) : outcome run :=
  match files !! 0%nat with
  | Some f => Returns f
  | None => Panics
  end.

(** [mergeInBatches]: [for len(files) > 1 { files = round(files) }], at
    most [fuel] rounds. *)
Fixpoint mergeInBatches (fuel : nat) (files : list run) : outcome run :=
  if decide (1 < length files)%nat then
    match fuel with
    | O => OutOfFuel
    | S f => mergeInBatches f (round files)
    end
  else first files.

End WithMax.

(** [main] once [MAX_WORDS_IN_MEMORY] is set: the content of
    [output.tsv]. *)
Definition wordcount (TrimSpace : string -> string)
    (MAX_WORDS_IN_MEMORY : nat) (fuel : nat) (lines : list string)
    : outcome run :=
  mergeInBatches MAX_WORDS_IN_MEMORY fuel
    (Input.processInputFile TrimSpace MAX_WORDS_IN_MEMORY lines).

(** [main]: [arg] is [os.Args[1]] and [lines] the lines of the input file;
    [None] is [os.Exit(1)]. *)
Definition main (TrimSpace : string -> string) (arg : string)
    (fuel : nat) (lines : list string) : option (outcome run) :=
  match Record.Atoi arg with
  | (n, None) =>
      if decide (n <= 0) then None
      else Some (wordcount TrimSpace (Z.to_nat n) fuel lines)
  | (_, Some _) => None
  end.

End Scheduler.

(** * Part II: properties *)

(** ** Arithmetic of [int] *)

Module GoIntFacts.

Import GoInt.

Lemma wrap_inRange z : inRange (wrap z).
Proof.
  unfold inRange, wrap, minInt, maxInt.
  pose proof (Z.mod_pos_bound (z + 2 ^ 63) (2 ^ 64) ltac:(lia)). lia.
Qed.

Lemma wrap_small z : inRange z -> wrap z = z.
Proof.
  unfold inRange, wrap, minInt, maxInt. intros H.
  rewrite Z.mod_small by lia. lia.
Qed.

Lemma wrap_wrap_add_l a b : wrap (wrap a + b) = wrap (a + b).
Proof.
  unfold wrap.
  replace ((a + 2 ^ 63) mod 2 ^ 64 - 2 ^ 63 + b + 2 ^ 63)
    with ((a + 2 ^ 63) mod 2 ^ 64 + b) by lia.
  replace (a + b + 2 ^ 63) with ((a + 2 ^ 63) + b) by lia.
  rewrite Zplus_mod_idemp_l. reflexivity.
Qed.

Lemma wrap_wrap_add_r a b : wrap (a + wrap b) = wrap (a + b).
Proof. rewrite (Z.add_comm a), wrap_wrap_add_l. f_equal. lia. Qed.

Lemma wrap_wrap z : wrap (wrap z) = wrap z.
Proof. apply wrap_small, wrap_inRange. Qed.

Lemma add_inRange a b : inRange (add a b).
Proof. apply wrap_inRange. Qed.

Lemma add_0_l a : inRange a -> add 0 a = a.
Proof. intros. unfold add. rewrite Z.add_0_l. by apply wrap_small. Qed.

End GoIntFacts.

(** ** The string order *)

Module StrFacts.

Import Str.

Lemma ltb_spec s t : String.ltb s t = true <-> String.le s t /\ s <> t.
Proof.
  unfold String.le, String.ltb, String.leb. split.
  - destruct (String.compare s t) eqn:E; try discriminate. intros _.
    split; [done|]. intros ->.
    assert (String.le t t) as Hr by reflexivity.
    unfold String.le, String.leb in Hr.
    rewrite String.compare_antisym in E.
    destruct (String.compare t t); simpl in *; congruence.
  - intros [Hle Hne]. destruct (String.compare s t) eqn:E; try done.
    apply String.compare_eq_iff in E. done.
Qed.

Lemma ltb_false s t : String.ltb s t = false <-> String.le t s.
Proof.
  unfold String.le, String.ltb, String.leb.
  rewrite (String.compare_antisym t s).
  destruct (String.compare s t) eqn:E; simpl; split; done.
Qed.

Lemma lt_le_ne s t : lt s t <-> String.le s t /\ s <> t.
Proof. apply ltb_spec. Qed.

Lemma not_lt s t : ~ lt s t <-> String.le t s.
Proof. unfold lt. rewrite <- ltb_false. destruct (String.ltb s t); naive_solver. Qed.

Global Instance lt_strict : StrictOrder lt.
Proof.
  split.
  - intros s [_ H]%lt_le_ne. done.
  - intros s t u [H1 N1]%lt_le_ne [H2 N2]%lt_le_ne. apply lt_le_ne. split.
    + by etrans.
    + intros ->. apply N1. by apply (anti_symm String.le).
Qed.

Lemma lt_le_trans s t u : lt s t -> String.le t u -> lt s u.
Proof.
  intros [H1 N1]%lt_le_ne H2. apply lt_le_ne. split; [by etrans|].
  intros ->. apply N1. by apply (anti_symm String.le).
Qed.

Lemma le_lt_trans s t u : String.le s t -> lt t u -> lt s u.
Proof.
  intros H1 [H2 N2]%lt_le_ne. apply lt_le_ne. split; [by etrans|].
  intros ->. apply N2. by apply (anti_symm String.le).
Qed.

Lemma le_lt_eq s t : String.le s t -> lt s t \/ s = t.
Proof.
  intros H. destruct (decide (s = t)); [by right|left]. by apply lt_le_ne.
Qed.

Lemma lt_le s t : lt s t -> String.le s t.
Proof. by intros [? _]%lt_le_ne. Qed.

Lemma empty_le s : String.le "" s.
Proof. by destruct s. Qed.

End StrFacts.

(** ** Parsing and formatting records *)

Module RecordFacts.

Import GoInt GoIntFacts Record.

Lemma cutTab_None s : cutTab s = None <-> containsTab s = false.
Proof.
  induction s as [|c r IH]; simpl; [done|].
  destruct (decide (c = Str.tab)); [done|].
  destruct (cutTab r) as [[a b]|]; [|tauto].
  split; [done|]. intros H. apply IH in H. done.
Qed.

Lemma cutTab_app w r :
  containsTab w = false -> cutTab (w +:+ String Str.tab r) = Some (w, r).
Proof.
  induction w as [|c w IH]; simpl; intros H.
  - done.
  - destruct (decide (c = Str.tab)); [done|]. by rewrite IH.
Qed.

Lemma cutTab_Some s a b :
  cutTab s = Some (a, b) ->
  s = a +:+ String Str.tab b /\ containsTab a = false.
Proof.
  revert a. induction s as [|c r IH]; simpl; intros a; [done|].
  destruct (decide (c = Str.tab)) as [->|].
  - intros [= <- <-]. done.
  - destruct (cutTab r) as [[a' b']|]; [|done]. intros [= <- <-].
    destruct (IH a' eq_refl) as [-> Ha]. simpl.
    split; [done|]. by rewrite decide_False.
Qed.

Lemma parseLine_noTab line :
  containsTab line = false -> parseLine line = (EmptyString, 0).
Proof.
  intros H. unfold parseLine, SplitN2.
  by apply cutTab_None in H as ->.
Qed.

Lemma parseLine_app w c :
  containsTab w = false ->
  parseLine (w +:+ String Str.tab c) = (w, (Atoi c).1).
Proof. intros H. unfold parseLine, SplitN2. by rewrite cutTab_app. Qed.

(** The token [parseLine] returns never holds a tab. *)
Lemma parseLine_word_noTab line : containsTab (parseLine line).1 = false.
Proof.
  unfold parseLine, SplitN2. destruct (cutTab line) as [[a b]|] eqn:E; [|done].
  by apply cutTab_Some in E as [_ ?].
Qed.

Lemma digitVal_bound c d : digitVal c = Some d -> 0 <= d <= 9.
Proof. unfold digitVal. case_decide; [|done]. by intros [= <-]. Qed.

Lemma parseDigits_nonneg body k n :
  0 <= k -> parseDigits body k = Some n -> 0 <= n.
Proof.
  revert k. induction body as [|d body IH]; simpl; intros k Hk.
  - by intros [= <-].
  - destruct (digitVal d) as [v|] eqn:Ev; [|done].
    apply digitVal_bound in Ev. apply IH. lia.
Qed.

Lemma parseBody_inRange neg body : inRange (parseBody neg body).1.
Proof.
  unfold parseBody, inRange, minInt, maxInt.
  destruct body as [|c r]; [simpl; lia|].
  destruct (parseDigits (String c r) 0) as [n|] eqn:En; [|simpl; lia].
  apply parseDigits_nonneg in En; [|lia].
  destruct neg; case_decide; simpl; lia.
Qed.

Lemma Atoi_inRange s : inRange (Atoi s).1.
Proof.
  unfold Atoi. destruct s as [|c r].
  - unfold inRange, minInt, maxInt. simpl. lia.
  - repeat case_decide; apply parseBody_inRange.
Qed.

Lemma Atoi_nonNumeric s : isNumeric s = false -> Atoi s = (0, Some ErrSyntax).
Proof.
  unfold isNumeric, Atoi, parseBody, allDigits. destruct s as [|c r]; [done|].
  destruct (decide (c = "-"%char)) as [->|].
  { rewrite decide_True by tauto. destruct r as [|c r]; [done|].
    by destruct (parseDigits (String c r) 0). }
  destruct (decide (c = "+"%char)) as [->|].
  { rewrite decide_True by tauto. destruct r as [|c r]; [done|].
    by destruct (parseDigits (String c r) 0). }
  rewrite decide_False by tauto.
  by destruct (parseDigits (String c r) 0).
Qed.

Lemma digitVal_digitChar d : 0 <= d <= 9 -> digitVal (digitChar d) = Some d.
Proof.
  intros H. unfold digitVal, digitChar.
  rewrite N_ascii_embedding by lia. rewrite Z2N.id by lia.
  rewrite decide_True by lia. f_equal. lia.
Qed.

Lemma digitChar_not_sign d :
  0 <= d <= 9 -> digitChar d <> "-"%char /\ digitChar d <> "+"%char.
Proof.
  intros H. pose proof (digitVal_digitChar d H) as Hd.
  split; intros E; rewrite E in Hd; vm_compute in Hd; congruence.
Qed.

Lemma parseDigits_digitsAux fuel n acc :
  0 <= n < 2 ^ Z.of_nat fuel ->
  exists p, forall k,
    parseDigits (digitsAux fuel n acc) k = parseDigits acc (k * p + n).
Proof.
  revert n acc. induction fuel as [|f IH]; intros n acc Hn.
  { exists 1. intros k. simpl in *. f_equal. lia. }
  cbn [digitsAux]. case_decide as Hlt.
  - exists 10. intros k. cbn [parseDigits].
    rewrite Z.mod_small by lia. rewrite digitVal_digitChar by lia. done.
  - destruct (IH (n / 10) (String (digitChar (n mod 10)) acc)) as [p Hp].
    { split; [apply Z.div_pos; lia|].
      apply Z.div_lt_upper_bound; [lia|].
      rewrite Nat2Z.inj_succ, Z.pow_succ_r in Hn by lia. lia. }
    exists (p * 10). intros k. rewrite Hp. cbn [parseDigits].
    pose proof (Z.mod_pos_bound n 10 ltac:(lia)).
    rewrite digitVal_digitChar by lia. f_equal.
    pose proof (Z.div_mod n 10 ltac:(lia)). lia.
Qed.

Lemma digitsAux_head fuel n acc :
  0 <= n ->
  exists d r, 0 <= d <= 9 /\ digitsAux (S fuel) n acc = String (digitChar d) r.
Proof.
  revert n acc. induction fuel as [|f IH]; intros n acc Hn.
  - cbn [digitsAux]. pose proof (Z.mod_pos_bound n 10 ltac:(lia)).
    case_decide; eexists _, _; (split; [|reflexivity]); lia.
  - remember (S f) as f'. cbn [digitsAux]. subst f'.
    pose proof (Z.mod_pos_bound n 10 ltac:(lia)).
    case_decide; [eexists _, _; (split; [|reflexivity]); lia|].
    apply IH. apply Z.div_pos; lia.
Qed.

Lemma parseDigits_formatUint n :
  0 <= n -> parseDigits (formatUint n) 0 = Some n.
Proof.
  intros Hn. unfold formatUint.
  destruct (parseDigits_digitsAux (S (Z.to_nat (Z.log2 n))) n EmptyString)
    as [p Hp].
  { split; [done|]. rewrite Nat2Z.inj_succ, Z2Nat.id by apply Z.log2_nonneg.
    destruct (decide (n = 0)) as [->|]; [done|].
    apply Z.log2_spec. lia. }
  rewrite Hp. simpl. f_equal.
Qed.

Lemma Atoi_formatInt z : inRange z -> Atoi (formatInt z) = (z, None).
Proof.
  unfold inRange, minInt, maxInt. intros Hz. unfold formatInt.
  case_decide as Hneg.
  - unfold Atoi. rewrite decide_True by done.
    destruct (digitsAux_head (Z.to_nat (Z.log2 (- z))) (- z) EmptyString)
      as (d & r & Hd & E); [lia|].
    fold (formatUint (- z)) in E.
    pose proof (parseDigits_formatUint (- z) ltac:(lia)) as Hp.
    unfold parseBody. rewrite E in *. rewrite Hp. rewrite decide_False by lia.
    f_equal. lia.
  - destruct (digitsAux_head (Z.to_nat (Z.log2 z)) z EmptyString)
      as (d & r & Hd & E); [lia|].
    fold (formatUint z) in E.
    pose proof (parseDigits_formatUint z ltac:(lia)) as Hp.
    rewrite E in *. unfold Atoi, parseBody.
    destruct (digitChar_not_sign d Hd) as [H1 H2].
    rewrite !decide_False by done. rewrite Hp.
    by rewrite decide_False by lia.
Qed.

Lemma parseLine_formatRecord w c :
  containsTab w = false -> inRange c -> parseLine (formatRecord (w, c)) = (w, c).
Proof.
  intros Hw Hc. unfold formatRecord. simpl.
  rewrite parseLine_app by done. by rewrite Atoi_formatInt.
Qed.

Lemma parseLine_count_inRange line : inRange (parseLine line).2.
Proof.
  unfold parseLine, SplitN2. destruct (cutTab line) as [[a b]|]; simpl.
  - apply Atoi_inRange.
  - unfold inRange, minInt, maxInt. lia.
Qed.






End RecordFacts.

(** ** The binary heap of [container/heap] *)

Module HeapFacts.

Local Open Scope nat_scope.

Import fileEntryHeap heap.

(** *** The heap order *)

Definition ele (a b : fileEntry) : Prop := String.le (word a) (word b).

Definition child (i k : nat) : Prop := k = 2 * i + 1 \/ k = 2 * i + 2.

(** Every entry below index [n] is at least its parent. *)
Definition ordered_upto (n : nat) (h : t) : Prop :=
  forall i k a b, child i k -> k < n ->
    h !! i = Some a -> h !! k = Some b -> ele a b.

Definition ordered (h : t) : Prop := ordered_upto (length h) h.

Global Instance ele_refl : Reflexive ele.
Proof. intros a. unfold ele. reflexivity. Qed.

Global Instance ele_trans : Transitive ele.
Proof. intros a b c. unfold ele. intros. by etrans. Qed.

Lemma Less_true h i j a b :
  h !! i = Some a -> h !! j = Some b -> Less h i j = true ->
  ele a b.
Proof.
  unfold Less. intros -> ->. intros H. by apply StrFacts.lt_le.
Qed.

Lemma Less_false h i j a b :
  h !! i = Some a -> h !! j = Some b -> Less h i j = false ->
  ele b a.
Proof.
  unfold Less. intros -> ->. intros H. by apply StrFacts.ltb_false.
Qed.

Lemma lookup_Swap h i j a b x :
  h !! i = Some a -> h !! j = Some b ->
  Swap h i j !! x =
    if decide (x = i) then Some b
    else if decide (x = j) then Some a
    else h !! x.
Proof.
  intros Hi Hj. unfold Swap. rewrite Hi, Hj.
  pose proof (lookup_lt_Some _ _ _ Hi). pose proof (lookup_lt_Some _ _ _ Hj).
  destruct (decide (x = i)) as [->|].
  { rewrite list_lookup_insert_eq; [done|]. by rewrite length_insert. }
  rewrite list_lookup_insert_ne by done.
  destruct (decide (x = j)) as [->|].
  { by rewrite list_lookup_insert_eq. }
  by rewrite list_lookup_insert_ne.
Qed.

Lemma length_Swap h i j : length (Swap h i j) = length h.
Proof.
  unfold Swap. destruct (h !! i), (h !! j); try done.
  by rewrite !length_insert.
Qed.

Lemma Swap_Permutation h i j : Swap h i j ≡ₚ h.
Proof.
  destruct (h !! i) as [a|] eqn:Hi; [|by unfold Swap; rewrite Hi].
  destruct (h !! j) as [b|] eqn:Hj; [|by unfold Swap; rewrite Hi, Hj].
  apply Permutation_inj. split; [apply length_Swap|].
  exists (fun x => if decide (x = i) then j else if decide (x = j) then i else x).
  split.
  - intros x y. repeat case_decide; lia.
  - intros x. rewrite (lookup_Swap h i j a b) by done.
    repeat case_decide; subst; done.
Qed.

Lemma up_length fuel h j : length (up fuel h j) = length h.
Proof.
  revert h j. induction fuel as [|f IH]; intros h j; simpl; [done|].
  case_decide; [done|]. destruct (negb _); [done|].
  by rewrite IH, length_Swap.
Qed.

Lemma up_Permutation fuel h j : up fuel h j ≡ₚ h.
Proof.
  revert h j. induction fuel as [|f IH]; intros h j; simpl; [done|].
  case_decide; [done|]. destruct (negb _); [done|].
  by rewrite IH, Swap_Permutation.
Qed.

Lemma down_length fuel h i n : length (down fuel h i n) = length h.
Proof.
  revert h i. induction fuel as [|f IH]; intros h i; simpl; [done|].
  case_decide; [done|]. destruct (negb _); [done|].
  by rewrite IH, length_Swap.
Qed.

Lemma down_Permutation fuel h i n : down fuel h i n ≡ₚ h.
Proof.
  revert h i. induction fuel as [|f IH]; intros h i; simpl; [done|].
  case_decide; [done|]. destruct (negb _); [done|].
  by rewrite IH, Swap_Permutation.
Qed.

(** [h] is ordered except that the entry at [j] may be smaller than its
    parent; the parent of [j] is still below the children of [j]. *)
Definition up_inv (h : t) (j : nat) : Prop :=
  (forall i k a b, child i k -> k <> j ->
     h !! i = Some a -> h !! k = Some b -> ele a b) /\
  (forall g k a b, child g j -> child j k ->
     h !! g = Some a -> h !! k = Some b -> ele a b).

Lemma child_parent j : 0 < j -> child ((j - 1) / 2) j.
Proof.
  intros Hj. unfold child.
  pose proof (Nat.div_mod (j - 1) 2 ltac:(lia)).
  pose proof (Nat.mod_upper_bound (j - 1) 2 ltac:(lia)). lia.
Qed.

Lemma up_ordered fuel h j :
  j < fuel -> j < length h -> up_inv h j -> ordered (up fuel h j).
Proof.
  revert h j. induction fuel as [|f IH]; intros h j Hf Hj [HA HB]; [lia|].
  cbn [up]. case_decide as Hij.
  { (* j = 0 *)
    assert (j = 0) as -> by (destruct j; [done|];
      pose proof (child_parent (S j) ltac:(lia)); unfold child in *; lia).
    intros i k a b Hc _. apply HA; [done|]. unfold child in Hc. lia. }
  pose proof (child_parent j ltac:(destruct j; [done|lia])) as Hc.
  set (i := (j - 1) / 2) in *.
  assert (i < j) as Hlt by (unfold child in Hc; lia).
  destruct (lookup_lt_is_Some_2 h j Hj) as [x Hx].
  destruct (lookup_lt_is_Some_2 h i ltac:(lia)) as [y Hy].
  destruct (Less h j i) eqn:HL; simpl.
  - (* swap and continue from the parent *)
    pose proof (Less_true _ _ _ _ _ Hx Hy HL) as Hxy.
    apply IH; [lia|rewrite length_Swap; lia|].
    split.
    + intros i' k a b Hc' Hk.
      rewrite !(lookup_Swap h i j y x) by done.
      unfold child in Hc, Hc'.
      destruct (decide (k = i)); [done|].
      destruct (decide (k = j)) as [->|].
      { rewrite decide_True by lia. by intros [= <-] [= <-]. }
      destruct (decide (i' = i)) as [->|].
      { intros [= <-] Hb. etrans; [apply Hxy|].
        eapply (HA i k); [done|done|done|done]. }
      destruct (decide (i' = j)) as [->|].
      { intros [= <-] Hb. eapply (HB i k); done. }
      intros Ha Hb. eapply (HA i' k); done.
    + intros g k a b Hg Hk.
      rewrite !(lookup_Swap h i j y x) by done.
      unfold child in Hc, Hg, Hk.
      rewrite decide_False by lia. rewrite decide_False by lia.
      rewrite (decide_False (P := k = i)) by lia.
      intros Ha. destruct (decide (k = j)) as [->|].
      { intros [= <-]. eapply (HA g i); [done|lia|done|done]. }
      intros Hb. etrans; [eapply (HA g i); [done|lia|done|done]|].
      eapply (HA i k); done.
  - (* the entry is in place *)
    pose proof (Less_false _ _ _ _ _ Hx Hy HL) as Hyx.
    intros i' k a b Hc' _ Ha Hb.
    destruct (decide (k = j)) as [->|]; [|by eapply HA].
    assert (i' = i) as -> by (unfold child in *; lia).
    congruence.
Qed.

Lemma ordered_up_inv_snoc h x : ordered h -> up_inv (h ++ [x]) (length h).
Proof.
  intros Ho. split.
  - intros i k a b Hc Hk Ha Hb.
    assert (k < length h).
    { apply lookup_lt_Some in Hb. rewrite length_app in Hb. simpl in Hb. lia. }
    rewrite lookup_app_l in Ha by (unfold child in Hc; lia).
    rewrite lookup_app_l in Hb by done.
    by eapply (Ho i k).
  - intros g k a b Hg Hk Ha Hb.
    apply lookup_lt_Some in Hb. rewrite length_app in Hb. simpl in Hb.
    unfold child in Hk. lia.
Qed.

Lemma Push_Permutation h x : Push h x ≡ₚ x :: h.
Proof.
  unfold Push, fileEntryHeap.Push. rewrite up_Permutation.
  by rewrite Permutation_app_comm.
Qed.

Lemma Push_length h x : length (Push h x) = S (length h).
Proof. by rewrite Push_Permutation. Qed.

Lemma Push_ordered h x : ordered h -> ordered (Push h x).
Proof.
  intros Ho. unfold Push, fileEntryHeap.Push, Len.
  rewrite length_app. simpl.
  replace (length h + 1 - 1) with (length h) by lia.
  apply up_ordered; [lia|rewrite length_app; simpl; lia|].
  by apply ordered_up_inv_snoc.
Qed.

(** [h] is ordered below [n] except that the entry at [i] may be larger
    than its children; the parent of [i] is still below them. *)
Definition down_inv (h : t) (i n : nat) : Prop :=
  (forall p k a b, child p k -> k < n -> p <> i ->
     h !! p = Some a -> h !! k = Some b -> ele a b) /\
  (forall g k a b, child g i -> child i k -> k < n ->
     h !! g = Some a -> h !! k = Some b -> ele a b).

Lemma down_lookup_ge fuel h i n m :
  n <= m -> down fuel h i n !! m = h !! m.
Proof.
  revert h i. induction fuel as [|f IH]; intros h i Hm; cbn [down]; [done|].
  case_decide as Hj1; [done|].
  set (j := if decide (2 * i + 1 + 1 < n)
            then (if Less h (2 * i + 1 + 1) (2 * i + 1)
                  then 2 * i + 1 + 1 else 2 * i + 1)
            else 2 * i + 1).
  assert (i < j < n) as Hj.
  { unfold j. case_decide; [destruct (Less _ _ _)|]; lia. }
  destruct (Less h j i) eqn:HL; cbn [negb]; [|done].
  rewrite IH by done.
  unfold Less in HL.
  destruct (h !! j) as [x|] eqn:Hx; [|done].
  destruct (h !! i) as [y|] eqn:Hy; [|done].
  rewrite (lookup_Swap h i j y x) by done.
  by rewrite !decide_False by lia.
Qed.

Lemma down_ordered fuel h i n :
  n <= fuel + i -> n <= length h -> down_inv h i n ->
  ordered_upto n (down fuel h i n).
Proof.
  revert h i. induction fuel as [|f IH]; intros h i Hf Hn [HA HB].
  { intros p k a b Hc Hk. simpl. apply HA; [done|done|].
    unfold child in Hc. lia. }
  cbn [down]. case_decide as Hj1.
  { intros p k a b Hc Hk. apply HA; [done|done|].
    unfold child in Hc. lia. }
  set (j1 := 2 * i + 1) in *. set (j2 := j1 + 1).
  set (j := if decide (j2 < n) then (if Less h j2 j1 then j2 else j1) else j1).
  destruct (lookup_lt_is_Some_2 h i ltac:(lia)) as [y Hy].
  destruct (lookup_lt_is_Some_2 h j1 ltac:(lia)) as [x1 Hx1].
  (* [j] is a child of [i] below [n], no larger than the other child *)
  assert (exists x, h !! j = Some x /\ child i j /\ j < n /\
            forall k b, child i k -> k < n -> h !! k = Some b -> ele x b)
    as (x & Hx & Hcj & Hjn & Hmin).
  { unfold j. case_decide as Hj2.
    - destruct (lookup_lt_is_Some_2 h j2 ltac:(lia)) as [x2 Hx2].
      destruct (Less h j2 j1) eqn:HL.
      + exists x2. split; [done|]. split; [unfold child; lia|]. split; [done|].
        intros k b [->| ->] _ Hb.
        * fold j1 in Hb. assert (b = x1) as -> by congruence.
          by eapply Less_true.
        * replace (2 * i + 2) with j2 in Hb by lia. by simplify_eq.
      + exists x1. split; [done|]. split; [unfold child; lia|]. split; [lia|].
        intros k b [->| ->] _ Hb.
        * fold j1 in Hb. by simplify_eq.
        * replace (2 * i + 2) with j2 in Hb by lia.
          assert (b = x2) as -> by congruence.
          by eapply Less_false.
    - exists x1. split; [done|]. split; [unfold child; lia|]. split; [lia|].
      intros k b [->| ->] Hk Hb; [|lia].
      fold j1 in Hb. by simplify_eq. }
  clearbody j. unfold child in Hcj.
  destruct (Less h j i) eqn:HL; simpl.
  - pose proof (Less_true _ _ _ _ _ Hx Hy HL) as Hxy.
    apply IH; [lia|rewrite length_Swap; lia|].
    split.
    + intros p k a b Hc Hk Hp.
      rewrite !(lookup_Swap h i j y x) by done.
      destruct (decide (p = i)) as [->|].
      { intros [= <-]. destruct (decide (k = i)); [unfold child in Hc; lia|].
        destruct (decide (k = j)) as [->|]; [by intros [= <-]|].
        intros Hb. by eapply Hmin. }
      rewrite (decide_False (P := p = j)) by done.
      intros Ha. destruct (decide (k = i)) as [->|].
      { intros [= <-]. eapply (HB p j); [done|unfold child; lia|done|done|done]. }
      destruct (decide (k = j)) as [->|].
      { unfold child in Hc. lia. }
      intros Hb. by eapply (HA p k).
    + intros g k a b Hg Hk Hkn.
      assert (g = i) as -> by (unfold child in Hg; lia).
      rewrite !(lookup_Swap h i j y x) by done.
      rewrite decide_True by done. intros [= <-].
      unfold child in Hk.
      rewrite !decide_False by lia.
      intros Hb. eapply (HA j k); [done|done|lia|done|done].
  - pose proof (Less_false _ _ _ _ _ Hx Hy HL) as Hyx.
    intros p k a b Hc Hk Ha Hb.
    destruct (decide (p = i)) as [->|]; [|by eapply HA].
    assert (a = y) as -> by congruence.
    etrans; [apply Hyx|]. by eapply Hmin.
Qed.

(** The root of an ordered heap is a least entry. *)
Lemma ordered_root h r k b :
  ordered h -> h !! 0 = Some r -> h !! k = Some b -> ele r b.
Proof.
  intros Ho Hr. revert b.
  induction k as [k IH] using lt_wf_ind. intros b Hb.
  destruct (decide (k = 0)) as [->|]; [by simplify_eq|].
  pose proof (child_parent k ltac:(lia)) as Hc.
  pose proof (lookup_lt_Some _ _ _ Hb) as Hk.
  destruct (lookup_lt_is_Some_2 h ((k - 1) / 2)) as [a Ha].
  { unfold child in Hc. lia. }
  etrans; [apply (IH ((k - 1) / 2)); [unfold child in Hc; lia|done]|].
  by eapply (Ho _ k).
Qed.

Lemma Pop_spec h :
  h <> [] ->
  exists e h', Pop h = Some (e, h') /\ h !! 0 = Some e /\ h ≡ₚ e :: h' /\
    (ordered h -> ordered h').
Proof.
  intros Hne.
  assert (0 < length h) as Hlen by (destruct h; [done|simpl; lia]).
  destruct (lookup_lt_is_Some_2 h 0 Hlen) as [e He].
  destruct (lookup_lt_is_Some_2 h (length h - 1) ltac:(lia)) as [z Hz].
  unfold Pop, fileEntryHeap.Pop, Len.
  set (n := length h - 1) in *.
  set (h2 := down n (Swap h 0 n) 0 n).
  assert (length h2 = S n) as Hl2.
  { unfold h2. rewrite down_length, length_Swap. lia. }
  assert (h2 !! n = Some e) as H2n.
  { unfold h2. rewrite down_lookup_ge by done.
    rewrite (lookup_Swap h 0 n e z) by done.
    case_decide as Hn0; [|by rewrite decide_True].
    rewrite Hn0 in Hz. congruence. }
  replace (length h2 - 1) with n by lia. rewrite H2n.
  exists e, (take n h2). split; [done|]. split; [done|].
  assert (h2 = take n h2 ++ [e]) as Hsplit.
  { rewrite <- (take_drop n h2) at 1. f_equal.
    apply list_eq. intros m. rewrite lookup_drop.
    destruct m as [|m]; simpl.
    - by rewrite Nat.add_0_r.
    - apply lookup_ge_None_2. lia. }
  split.
  { rewrite (Permutation_cons_append (take n h2) e), <- Hsplit.
    unfold h2. by rewrite down_Permutation, Swap_Permutation. }
  intros Ho.
  assert (ordered_upto n h2) as Ho2.
  { apply down_ordered; [lia|rewrite length_Swap; lia|].
    split.
    - intros p k a b Hc Hk Hp.
      rewrite !(lookup_Swap h 0 n e z) by done.
      unfold child in Hc. rewrite !decide_False by lia.
      apply (Ho p k); [done|lia].
    - intros g k a b Hg. unfold child in Hg. lia. }
  intros i k a b Hc Hk. rewrite length_take in Hk.
  rewrite !lookup_take_lt by (unfold child in Hc; lia).
  apply Ho2; [done|lia].
Qed.

Lemma Pop_min h e h' x :
  ordered h -> Pop h = Some (e, h') -> x ∈ h -> ele e x.
Proof.
  intros Ho HP Hx.
  destruct h as [|y h0] eqn:Eh; [by apply elem_of_nil in Hx|].
  destruct (Pop_spec (y :: h0) ltac:(done)) as (e' & h'' & HP' & H0 & _).
  rewrite HP in HP'. simplify_eq.
  apply list_elem_of_lookup in Hx as [k Hk].
  by eapply ordered_root.
Qed.

Lemma Pop_nil : Pop [] = None.
Proof. reflexivity. Qed.

Lemma ordered_nil : ordered [].
Proof. intros i k a b _ Hk. simpl in Hk. lia. Qed.

Lemma Init_nil : Init [] = [].
Proof. reflexivity. Qed.

End HeapFacts.

(** ** Tables and their sorted flush *)

Module TableFacts.

Import Record Table.

(** The mathematical sum of the counts recorded for [w] in [rs]. *)
Definition sumFor (w : string) (rs : list record) : Z :=
  foldr (fun r acc => if decide (r.1 = w) then r.2 + acc else acc) 0 rs.

(** *** Sorted key lists *)

Lemma StronglySorted_le_lt (l : list string) :
  StronglySorted String.le l -> NoDup l -> StronglySorted Str.lt l.
Proof.
  induction 1 as [|x l Hl IH Hx]; intros Hnd; [constructor|].
  apply NoDup_cons in Hnd as [Hnin Hnd].
  constructor; [by apply IH|].
  rewrite Forall_forall in Hx |- *. intros y Hy. apply StrFacts.lt_le_ne.
  split; [by apply Hx|]. intros ->. done.
Qed.

Lemma StronglySorted_lt_le (l : list string) :
  StronglySorted Str.lt l -> StronglySorted String.le l.
Proof.
  induction 1 as [|x l Hl IH Hx]; constructor; [done|].
  eapply Forall_impl; [done|]. intros y. apply StrFacts.lt_le.
Qed.

Lemma StronglySorted_lt_NoDup (l : list string) :
  StronglySorted Str.lt l -> NoDup l.
Proof.
  induction 1 as [|x l Hl IH Hx]; constructor; [|done].
  intros Hin. rewrite Forall_forall in Hx.
  by apply (irreflexivity Str.lt x), Hx.
Qed.

Lemma sorted_lt_unique (l1 l2 : list string) :
  StronglySorted Str.lt l1 -> StronglySorted Str.lt l2 ->
  (forall w, w ∈ l1 <-> w ∈ l2) -> l1 = l2.
Proof.
  intros H1 H2 Hiff.
  apply (StronglySorted_unique String.le); try by apply StronglySorted_lt_le.
  apply NoDup_Permutation; auto using StronglySorted_lt_NoDup.
Qed.

Lemma elem_of_sortedKeys m w : w ∈ sortedKeys m <-> is_Some (m !! w).
Proof.
  unfold sortedKeys. rewrite merge_sort_Permutation.
  rewrite list_elem_of_fmap. split.
  - intros [[k v] [-> Hkv]]. apply elem_of_map_to_list in Hkv. by eexists.
  - intros [v Hv]. exists (w, v). split; [done|]. by apply elem_of_map_to_list.
Qed.

Lemma sortedKeys_sorted m : StronglySorted Str.lt (sortedKeys m).
Proof.
  apply StronglySorted_le_lt.
  - apply StronglySorted_merge_sort; apply _.
  - unfold sortedKeys. rewrite merge_sort_Permutation.
    apply NoDup_fst_map_to_list.
Qed.

Lemma sortedKeys_unique m (l : list string) :
  StronglySorted Str.lt l -> (forall w, w ∈ l <-> is_Some (m !! w)) ->
  sortedKeys m = l.
Proof.
  intros Hl Hiff. apply sorted_lt_unique; [apply sortedKeys_sorted|done|].
  intros w. by rewrite elem_of_sortedKeys, Hiff.
Qed.

Lemma sortedKeys_empty : sortedKeys ∅ = [].
Proof. apply sortedKeys_unique; [constructor|]. intros w. 
  rewrite lookup_empty, elem_of_nil. split; [done|]. by intros [? ?]. Qed.

Lemma length_sortedKeys m : length (sortedKeys m) = size m.
Proof.
  unfold sortedKeys. rewrite merge_sort_Permutation, length_fmap.
  apply length_map_to_list.
Qed.

(** *** The flushed records *)

Lemma flushRecords_keys m : (flushRecords m).*1 = sortedKeys m.
Proof.
  unfold flushRecords. rewrite <- list_fmap_compose.
  rewrite <- (list_fmap_id (sortedKeys m)) at 2. by apply list_fmap_ext.
Qed.

Lemma flushRecords_sorted m : StronglySorted Str.lt (flushRecords m).*1.
Proof. rewrite flushRecords_keys. apply sortedKeys_sorted. Qed.

Lemma elem_of_flushRecords m w c :
  (w, c) ∈ flushRecords m <-> m !! w = Some c.
Proof.
  unfold flushRecords. rewrite list_elem_of_fmap. split.
  - intros (k & [= -> ->] & Hk). apply elem_of_sortedKeys in Hk as [v Hv].
    unfold get. by rewrite Hv.
  - intros Hw. exists w. split.
    + unfold get. by rewrite Hw.
    + apply elem_of_sortedKeys. by eexists.
Qed.

Lemma flushRecords_empty : flushRecords ∅ = [].
Proof. unfold flushRecords. by rewrite sortedKeys_empty. Qed.

Lemma length_flushRecords m : length (flushRecords m) = size m.
Proof. unfold flushRecords. by rewrite length_fmap, length_sortedKeys. Qed.

(** A strictly sorted list of records that lists the bindings of [m] is the
    flush of [m]. *)
Lemma flushRecords_unique m (R : list record) :
  StronglySorted Str.lt R.*1 ->
  (forall w c, (w, c) ∈ R <-> m !! w = Some c) ->
  flushRecords m = R.
Proof.
  intros Hs Hiff. unfold flushRecords.
  rewrite (sortedKeys_unique m R.*1 Hs).
  - rewrite <- list_fmap_compose.
    rewrite <- (list_fmap_id R) at 2. apply list_fmap_ext.
    intros i [w c] Hin%list_elem_of_lookup_2. simpl.
    apply Hiff in Hin. unfold get. by rewrite Hin.
  - intros w. rewrite list_elem_of_fmap. split.
    + intros ([k c] & -> & Hin). apply Hiff in Hin. by eexists.
    + intros [c Hc]. exists (w, c). split; [done|]. by apply Hiff.
Qed.

Lemma StronglySorted_lt_snoc (l : list string) w :
  StronglySorted Str.lt l -> (forall k, k ∈ l -> Str.lt k w) ->
  StronglySorted Str.lt (l ++ [w]).
Proof.
  intros Hl Hw. apply StronglySorted_app.
  split; [|split; [done|by repeat constructor]].
  intros x y Hx Hy. apply list_elem_of_singleton in Hy as ->. by apply Hw.
Qed.

(** Inserting a key above all the others appends its record. *)
Lemma flushRecords_insert_max m w v :
  (forall k, is_Some (m !! k) -> Str.lt k w) ->
  flushRecords (<[w := v]> m) = flushRecords m ++ [(w, v)].
Proof.
  intros Hmax.
  assert (m !! w = None) as Hnone.
  { destruct (m !! w) eqn:E; [|done].
    by destruct (irreflexivity Str.lt w); apply Hmax. }
  apply flushRecords_unique.
  - rewrite fmap_app. simpl. apply StronglySorted_lt_snoc.
    + apply flushRecords_sorted.
    + intros k. rewrite flushRecords_keys, elem_of_sortedKeys. apply Hmax.
  - intros k c. rewrite elem_of_app, list_elem_of_singleton, elem_of_flushRecords.
    rewrite lookup_insert. case_decide as Hk.
    + subst k. split; [intros [H|[= ->]]; congruence|].
      intros [= ->]. by right.
    + split; [intros [H|[= -> _]]; done|]. by left.
Qed.

Lemma size_incr_le m w c : (size (incr m w c) <= S (size m))%nat.
Proof.
  unfold incr. destruct (m !! w) as [v|] eqn:E.
  - rewrite map_size_insert_Some by (by eexists). lia.
  - rewrite map_size_insert_None by done. lia.
Qed.

Lemma size_incr_Some m w c : is_Some (m !! w) -> size (incr m w c) = size m.
Proof. intros Hv. unfold incr. by rewrite map_size_insert_Some. Qed.

Lemma lookup_incr m w c k :
  incr m w c !! k =
    if decide (w = k) then Some (GoInt.add (get m w) c) else m !! k.
Proof. unfold incr. apply lookup_insert. Qed.

Lemma sumFor_notin w rs : w ∉ rs.*1 -> sumFor w rs = 0.
Proof.
  induction rs as [|r rs IH]; simpl; [done|]. intros Hn.
  apply not_elem_of_cons in Hn as [Hne Hn].
  rewrite decide_False by done. by apply IH.
Qed.

Lemma sumFor_app w rs1 rs2 : sumFor w (rs1 ++ rs2) = sumFor w rs1 + sumFor w rs2.
Proof.
  induction rs1 as [|r rs1 IH]; simpl; [done|].
  case_decide; lia.
Qed.

Lemma sumFor_Permutation w rs1 rs2 : rs1 ≡ₚ rs2 -> sumFor w rs1 = sumFor w rs2.
Proof.
  induction 1 as [|r l l' _ IH|r1 r2 l|l1 l2 l3 _ IH1 _ IH2]; simpl.
  - done.
  - by rewrite IH.
  - repeat case_decide; lia.
  - congruence.
Qed.

(** What accumulating [rs] records for a key: the wrapped sum of what was
    there and of the counts added. *)
Lemma lookup_accumulate m rs w :
  accumulate m rs !! w =
    if decide (w ∈ rs.*1) then Some (GoInt.wrap (get m w + sumFor w rs))
    else m !! w.
Proof.
  revert m. induction rs as [|[k c] rs IH]; intros m.
  { rewrite decide_False; [done|]. apply not_elem_of_nil. }
  change (accumulate m ((k, c) :: rs)) with (accumulate (incr m k c) rs).
  rewrite IH. clear IH. rewrite fmap_cons. cbn [fst sumFor foldr snd].
  fold (sumFor w rs).
  assert (get (incr m k c) w =
          if decide (k = w) then GoInt.add (get m w) c else get m w) as Hget.
  { unfold get at 1. rewrite lookup_incr. case_decide; by subst. }
  destruct (decide (w ∈ rs.*1)) as [Hin|Hnin].
  - rewrite decide_True by (by right). rewrite Hget. f_equal.
    case_decide; [|done]. unfold GoInt.add.
    rewrite GoIntFacts.wrap_wrap_add_l. f_equal. lia.
  - rewrite lookup_incr. rewrite (sumFor_notin w rs Hnin).
    destruct (decide (k = w)) as [->|Hne].
    + rewrite decide_True by (by left). unfold GoInt.add. do 2 f_equal. lia.
    + rewrite decide_False; [done|]. intros [?|?]%elem_of_cons; done.
Qed.

Lemma accumulate_Permutation m rs1 rs2 :
  rs1 ≡ₚ rs2 -> accumulate m rs1 = accumulate m rs2.
Proof.
  intros Hp. apply map_eq. intros w. rewrite !lookup_accumulate.
  rewrite (sumFor_Permutation w _ _ Hp).
  destruct (decide (w ∈ rs1.*1)) as [H1|H1];
    destruct (decide (w ∈ rs2.*1)) as [H2|H2]; try done.
  - rewrite Hp in H1. done.
  - rewrite <- Hp in H2. done.
Qed.

Lemma accumulate_app m rs1 rs2 :
  accumulate m (rs1 ++ rs2) = accumulate (accumulate m rs1) rs2.
Proof. apply foldl_app. Qed.

Lemma accumulate_snoc m rs w c :
  accumulate m (rs ++ [(w, c)]) = incr (accumulate m rs) w c.
Proof. by rewrite accumulate_app. Qed.

(** The largest key of a table is flushed last. *)
Lemma flushRecords_last_max m w v :
  m !! w = Some v ->
  (forall k, is_Some (m !! k) -> String.le k w) ->
  flushRecords m = flushRecords (delete w m) ++ [(w, v)].
Proof.
  intros Hw Hmax. rewrite <- (insert_delete_id m w v Hw) at 1.
  apply flushRecords_insert_max. intros k [x Hk].
  apply lookup_delete_Some in Hk as [Hne Hk].
  apply StrFacts.lt_le_ne. split; [apply Hmax; by eexists|done].
Qed.

Lemma flushRecords_update_max m w v v' :
  m !! w = Some v ->
  (forall k, is_Some (m !! k) -> String.le k w) ->
  flushRecords (<[w := v']> m) = flushRecords (delete w m) ++ [(w, v')].
Proof.
  intros Hw Hmax. rewrite <- (insert_delete_eq m).
  apply flushRecords_insert_max. intros k [x Hk].
  apply lookup_delete_Some in Hk as [Hne Hk].
  apply StrFacts.lt_le_ne. split; [apply Hmax; by eexists|done].
Qed.

(** *** Reading a flushed table back *)

(** A table whose keys hold no tab and whose counts are [int]s: its lines
    parse back to its records. *)
Definition wfTable (T : Table.t) : Prop :=
  forall w c, T !! w = Some c -> containsTab w = false /\ GoInt.inRange c.

Lemma wfTable_empty : wfTable ∅.
Proof. intros w c H. by rewrite lookup_empty in H. Qed.

Lemma wfTable_incr T w c :
  wfTable T -> containsTab w = false -> wfTable (incr T w c).
Proof.
  intros HT Hw k v. rewrite lookup_incr. case_decide as Hk.
  - subst k. intros [= <-]. split; [done|apply GoIntFacts.add_inRange].
  - apply HT.
Qed.

Lemma wfTable_accumulate T rs :
  wfTable T -> Forall (fun r : record => containsTab r.1 = false) rs ->
  wfTable (accumulate T rs).
Proof.
  revert T. induction rs as [|[w c] rs IH]; intros T HT Hrs; [done|].
  apply Forall_cons in Hrs as [Hw Hrs].
  apply (IH (incr T w c)); [|done]. by apply wfTable_incr.
Qed.

Lemma parse_flushLines T :
  wfTable T -> parseLine <$> flushLines T = flushRecords T.
Proof.
  intros HT. unfold flushLines. rewrite <- list_fmap_compose.
  rewrite <- (list_fmap_id (flushRecords T)) at 2.
  apply list_fmap_ext. intros i [w c] Hin%list_elem_of_lookup_2. simpl.
  apply elem_of_flushRecords, HT in Hin as [Hw Hc].
  by apply RecordFacts.parseLine_formatRecord.
Qed.

Lemma sumFor_NoDup (R : list record) w v :
  NoDup R.*1 -> (w, v) ∈ R -> sumFor w R = v.
Proof.
  induction R as [|[k c] R IH]; intros Hnd Hin; [by apply elem_of_nil in Hin|].
  rewrite fmap_cons in Hnd. apply NoDup_cons in Hnd as [Hk Hnd].
  simpl. apply elem_of_cons in Hin as [[= -> ->]|Hin].
  - rewrite decide_True by done. rewrite (sumFor_notin k R Hk). lia.
  - rewrite decide_False; [by apply IH|].
    intros ->. apply Hk. apply list_elem_of_fmap. by exists (w, v).
Qed.

Lemma sumFor_flushRecords T w : sumFor w (flushRecords T) = get T w.
Proof.
  unfold get. destruct (T !! w) as [v|] eqn:E; simpl.
  - apply sumFor_NoDup; [|by apply elem_of_flushRecords].
    apply StronglySorted_lt_NoDup, flushRecords_sorted.
  - apply sumFor_notin. rewrite flushRecords_keys, elem_of_sortedKeys, E.
    by intros [? ?].
Qed.

(** Accumulating the records of a flushed table gives the table back. *)
Lemma accumulate_flushRecords T :
  (forall w c, T !! w = Some c -> GoInt.inRange c) ->
  accumulate ∅ (flushRecords T) = T.
Proof.
  intros HT. apply map_eq. intros w. rewrite lookup_accumulate.
  rewrite flushRecords_keys, sumFor_flushRecords.
  unfold get at 1. rewrite lookup_empty. simpl.
  destruct (T !! w) as [v|] eqn:E.
  - rewrite decide_True by (apply elem_of_sortedKeys; by eexists).
    unfold get. rewrite E. simpl. f_equal.
    apply GoIntFacts.wrap_small. by eapply HT.
  - rewrite decide_False; [done|].
    rewrite elem_of_sortedKeys, E. by intros [? ?].
Qed.

(** Two sequences of records that accumulate to the same table. *)
Definition sameTable (rs1 rs2 : list record) : Prop :=
  accumulate ∅ rs1 = accumulate ∅ rs2.

Lemma sameTable_iff rs1 rs2 :
  sameTable rs1 rs2 <->
  forall w, (w ∈ rs1.*1 <-> w ∈ rs2.*1) /\
            GoInt.wrap (sumFor w rs1) = GoInt.wrap (sumFor w rs2).
Proof.
  unfold sameTable. split.
  - intros E w. pose proof (f_equal (fun m : Table.t => m !! w) E) as Ew.
    simpl in Ew. rewrite !lookup_accumulate in Ew.
    unfold get in Ew. rewrite lookup_empty in Ew. simpl in Ew.
    destruct (decide (w ∈ rs1.*1)) as [H1|H1];
      destruct (decide (w ∈ rs2.*1)) as [H2|H2]; try done.
    + by simplify_eq.
    + by rewrite !sumFor_notin.
  - intros H. apply map_eq. intros w. rewrite !lookup_accumulate.
    destruct (H w) as [Hiff Hsum].
    unfold get. rewrite lookup_empty. simpl.
    destruct (decide (w ∈ rs1.*1)) as [H1|H1];
      destruct (decide (w ∈ rs2.*1)) as [H2|H2]; try tauto.
    by rewrite !Z.add_0_l, Hsum.
Qed.

Global Instance sameTable_equiv : Equivalence sameTable.
Proof.
  unfold sameTable. split.
  - by intros x.
  - by intros x y.
  - intros x y z. congruence.
Qed.

Lemma sameTable_app rs1 rs1' rs2 rs2' :
  sameTable rs1 rs1' -> sameTable rs2 rs2' ->
  sameTable (rs1 ++ rs2) (rs1' ++ rs2').
Proof.
  rewrite !sameTable_iff. intros H1 H2 w.
  destruct (H1 w) as [Hi1 Hs1]. destruct (H2 w) as [Hi2 Hs2].
  rewrite !fmap_app, !elem_of_app, !sumFor_app. split; [tauto|].
  rewrite <- GoIntFacts.wrap_wrap_add_l, <- GoIntFacts.wrap_wrap_add_r.
  rewrite Hs1, Hs2.
  by rewrite GoIntFacts.wrap_wrap_add_l, GoIntFacts.wrap_wrap_add_r.
Qed.

Lemma sameTable_Permutation rs1 rs2 : rs1 ≡ₚ rs2 -> sameTable rs1 rs2.
Proof. apply accumulate_Permutation. Qed.

Lemma sameTable_flushRecords rs :
  sameTable (flushRecords (accumulate ∅ rs)) rs.
Proof.
  unfold sameTable. apply accumulate_flushRecords.
  intros w c. rewrite lookup_accumulate. case_decide; [|by rewrite lookup_empty].
  intros [= <-]. apply GoIntFacts.wrap_inRange.
Qed.

End TableFacts.

(** ** The merge loop *)

Module MergeFacts.

Import Record Table TableFacts Merge.

Local Open Scope nat_scope.

(** The heap entry made from a line of scanner [i]. *)
Definition entryOf (i : nat) (line : string) : fileEntry :=
  mkEntry (parseLine line).1 (parseLine line).2 i.

(** The record an entry carries. *)
Definition recOf (e : fileEntry) : record := (word e, count e).

(** The entries still to come from the unread lines, scanner by scanner. *)
Fixpoint pendingFrom (k : nat) (rs : list run) : list fileEntry :=
  match rs with
  | [] => []
  | r :: rs' => (entryOf k <$> r) ++ pendingFrom (S k) rs'
  end.

Definition pending (rs : list run) : list fileEntry := pendingFrom 0 rs.

(** The entries popped by the loop, in order. *)
Fixpoint popSeq (fuel : nat) (rs : list run) (hp : fileEntryHeap.t)
    : list fileEntry :=
  match fuel with
  | O => []
  | S f =>
      match heap.Pop hp with
      | None => []
      | Some (e, hp') =>
          let '(rs', hp'') := scanPush (fileIdx e) rs hp' in
          e :: popSeq f rs' hp''
      end
  end.

(** What one popped record does to the buffer and the writer. *)
Definition bufStep (B : nat) (bo : Table.t * run) (r : record)
    : Table.t * run :=
  let '(buf, out) := makeRoom B r.1 bo.1 bo.2 in
  (incr buf r.1 r.2, out).

Lemma scanPush_cons i rs hp line rest :
  rs !! i = Some (line :: rest) ->
  scanPush i rs hp = (<[i := rest]> rs, heap.Push hp (entryOf i line)).
Proof.
  intros H. unfold scanPush, entryOf. rewrite H.
  by destruct (parseLine line).
Qed.

Lemma scanPush_nil i rs hp :
  rs !! i = Some [] \/ rs !! i = None -> scanPush i rs hp = (rs, hp).
Proof. unfold scanPush. by intros [-> | ->]. Qed.

Lemma scanPush_cases i rs hp :
  (exists line rest, rs !! i = Some (line :: rest) /\
     scanPush i rs hp = (<[i := rest]> rs, heap.Push hp (entryOf i line))) \/
  ((rs !! i = Some [] \/ rs !! i = None) /\ scanPush i rs hp = (rs, hp)).
Proof.
  destruct (rs !! i) as [[|line rest]|] eqn:E.
  - right. split; [by left|]. apply scanPush_nil. by left.
  - left. exists line, rest. split; [done|]. by apply scanPush_cons.
  - right. split; [by right|]. apply scanPush_nil. by right.
Qed.

Lemma pendingFrom_scan k rs i line rest :
  rs !! i = Some (line :: rest) ->
  pendingFrom k rs ≡ₚ entryOf (k + i) line :: pendingFrom k (<[i := rest]> rs).
Proof.
  revert k i. induction rs as [|r rs IH]; intros k i; [done|].
  destruct i as [|i]; simpl.
  - intros [= ->]. rewrite Nat.add_0_r. done.
  - intros H. rewrite (IH (S k) i H).
    replace (S k + i) with (k + S i) by lia.
    by rewrite Permutation_middle.
Qed.

Lemma pending_scan rs i line rest :
  rs !! i = Some (line :: rest) ->
  pending rs ≡ₚ entryOf i line :: pending (<[i := rest]> rs).
Proof. apply (pendingFrom_scan 0). Qed.

Lemma length_pendingFrom k rs : length (pendingFrom k rs) = length (concat rs).
Proof.
  revert k. induction rs as [|r rs IH]; intros k; simpl; [done|].
  by rewrite !length_app, length_fmap, IH.
Qed.

Lemma elem_of_pendingFrom k rs e :
  e ∈ pendingFrom k rs <->
  exists i r line, rs !! i = Some r /\ line ∈ r /\ e = entryOf (k + i) line.
Proof.
  revert k. induction rs as [|r rs IH]; intros k; simpl.
  - rewrite elem_of_nil. split; [done|]. by intros (i & r & l & H & _).
  - rewrite elem_of_app, list_elem_of_fmap, IH. split.
    + intros [(line & -> & Hl)|(i & r' & line & Hi & Hl & ->)].
      * exists 0, r, line. by rewrite Nat.add_0_r.
      * exists (S i), r', line. split; [done|]. split; [done|]. f_equal. lia.
    + intros ([|i] & r' & line & Hi & Hl & ->); simpl in Hi.
      * left. simplify_eq. exists line. by rewrite Nat.add_0_r.
      * right. exists i, r', line. split; [done|]. split; [done|]. f_equal. lia.
Qed.

Lemma pending_records rs :
  recOf <$> pending rs = parseLine <$> concat rs.
Proof.
  unfold pending. generalize 0.
  induction rs as [|r rs IH]; intros k; simpl; [done|].
  rewrite !fmap_app, IH. f_equal.
  rewrite <- list_fmap_compose. apply list_fmap_ext.
  intros i x _. unfold recOf, entryOf. simpl. by destruct (parseLine x).
Qed.

(** The scan keeps the entries at hand: it moves one from the unread lines
    to the heap, or changes nothing. *)
Lemma scanPush_Permutation i rs hp rs' hp' :
  scanPush i rs hp = (rs', hp') ->
  hp' ++ pending rs' ≡ₚ hp ++ pending rs.
Proof.
  destruct (scanPush_cases i rs hp) as [(line & rest & Hi & ->)|[_ ->]];
    intros [= <- <-]; [|done].
  rewrite HeapFacts.Push_Permutation, (pending_scan rs i line rest Hi).
  simpl. by rewrite Permutation_middle.
Qed.

Lemma Pop_None_iff (hp : fileEntryHeap.t) : heap.Pop hp = None <-> hp = [].
Proof.
  split; [|by intros ->].
  intros HP. destruct hp as [|x hp]; [done|].
  destruct (HeapFacts.Pop_spec (x :: hp) ltac:(done)) as (e & h' & HP' & _).
  congruence.
Qed.

Lemma Pop_Some (hp : fileEntryHeap.t) e hp' :
  heap.Pop hp = Some (e, hp') ->
  hp ≡ₚ e :: hp' /\ (HeapFacts.ordered hp -> HeapFacts.ordered hp').
Proof.
  intros HP. destruct hp as [|x hp]; [done|].
  destruct (HeapFacts.Pop_spec (x :: hp) ltac:(done))
    as (e' & h' & HP' & _ & Hp & Ho).
  rewrite HP in HP'. by simplify_eq.
Qed.

(** *** Every entry is popped *)

(** A scanner with unread lines has an entry in the heap. *)
Definition liveBelow (k : nat) (rs : list run) (hp : fileEntryHeap.t) : Prop :=
  forall i r, i < k -> rs !! i = Some r -> r <> [] ->
    exists e, e ∈ hp /\ fileIdx e = i.

Definition live (rs : list run) (hp : fileEntryHeap.t) : Prop :=
  forall i r, rs !! i = Some r -> r <> [] -> exists e, e ∈ hp /\ fileIdx e = i.

Lemma scanPush_liveBelow k rs hp rs' hp' :
  scanPush k rs hp = (rs', hp') ->
  liveBelow k rs hp -> liveBelow (S k) rs' hp'.
Proof.
  intros Hs Hl i r Hi Hr Hne.
  destruct (scanPush_cases k rs hp) as [(line & rest & Hk & E)|[Hk E]];
    rewrite E in Hs; simplify_eq.
  - destruct (decide (i = k)) as [->|].
    + exists (entryOf k line). split; [|done].
      rewrite HeapFacts.Push_Permutation. by left.
    + rewrite list_lookup_insert_ne in Hr by done.
      destruct (Hl i r ltac:(lia) Hr Hne) as (e & He & <-).
      exists e. split; [|done]. rewrite HeapFacts.Push_Permutation. by right.
  - destruct (decide (i = k)) as [->|].
    + destruct Hk as [Hk|Hk]; congruence.
    + apply (Hl i r); [lia|done|done].
Qed.

Lemma step_live rs hp e hp' rs' hp'' :
  heap.Pop hp = Some (e, hp') ->
  scanPush (fileIdx e) rs hp' = (rs', hp'') ->
  live rs hp -> live rs' hp''.
Proof.
  intros HP Hs Hl i r Hr Hne.
  apply Pop_Some in HP as [Hperm _].
  destruct (scanPush_cases (fileIdx e) rs hp')
    as [(line & rest & Hk & E)|[Hk E]]; rewrite E in Hs; simplify_eq.
  - destruct (decide (i = fileIdx e)) as [->|].
    + exists (entryOf (fileIdx e) line). split; [|done].
      rewrite HeapFacts.Push_Permutation. by left.
    + rewrite list_lookup_insert_ne in Hr by done.
      destruct (Hl i r Hr Hne) as (x & Hx & <-).
      exists x. split; [|done]. rewrite HeapFacts.Push_Permutation. right.
      rewrite Hperm in Hx. apply elem_of_cons in Hx as [->|]; done.
  - destruct (decide (i = fileIdx e)) as [->|].
    + destruct Hk as [Hk|Hk]; congruence.
    + destruct (Hl i r Hr Hne) as (x & Hx & <-).
      exists x. split; [|done].
      rewrite Hperm in Hx. apply elem_of_cons in Hx as [->|]; done.
Qed.

Lemma live_nil_pending rs : live rs [] -> pending rs = [].
Proof.
  intros Hl. destruct (pending rs) as [|e l] eqn:E; [done|].
  assert (e ∈ pending rs) as He by (rewrite E; by left).
  apply elem_of_pendingFrom in He as (i & r & line & Hi & Hline & _).
  destruct (Hl i r Hi) as (x & Hx & _).
  - intros ->. by apply elem_of_nil in Hline.
  - by apply elem_of_nil in Hx.
Qed.

(** With fuel for every entry, the loop pops exactly the entries of the
    heap and of the unread lines. *)
Lemma popSeq_Permutation fuel rs hp :
  live rs hp -> length hp + length (concat rs) <= fuel ->
  popSeq fuel rs hp ≡ₚ hp ++ pending rs.
Proof.
  revert rs hp. induction fuel as [|f IH]; intros rs hp Hl Hf.
  { destruct hp; [|simpl in Hf; lia]. simpl. by rewrite live_nil_pending. }
  cbn [popSeq]. destruct (heap.Pop hp) as [[e hp']|] eqn:HP.
  - destruct (scanPush (fileIdx e) rs hp') as [rs' hp''] eqn:Hs.
    pose proof (step_live _ _ _ _ _ _ HP Hs Hl) as Hl'.
    pose proof (scanPush_Permutation _ _ _ _ _ Hs) as Hp.
    apply Pop_Some in HP as [Hperm _].
    rewrite IH; [by rewrite Hp, Hperm|done|].
    apply Permutation_length in Hp. rewrite !length_app in Hp.
    unfold pending in Hp. rewrite !length_pendingFrom in Hp.
    apply Permutation_length in Hperm. simpl in Hperm. lia.
  - apply Pop_None_iff in HP as ->. simpl. by rewrite live_nil_pending.
Qed.

(** *** The entries are popped in order *)

(** The tokens a reader of the run gets from [parseLine]. *)
Definition tokensOf (r : run) : list string := (fun l => (parseLine l).1) <$> r.

(** A run whose tokens never decrease. *)
Definition sortedRun (r : run) : Prop := StronglySorted String.le (tokensOf r).

Definition sortedInv (rs : list run) (hp : fileEntryHeap.t) : Prop :=
  HeapFacts.ordered hp /\
  (forall e r l, e ∈ hp -> rs !! fileIdx e = Some r -> l ∈ r ->
     String.le (word e) (parseLine l).1) /\
  Forall sortedRun rs.

Lemma sortedRun_cons line rest :
  sortedRun (line :: rest) ->
  sortedRun rest /\ forall l, l ∈ rest -> String.le (parseLine line).1 (parseLine l).1.
Proof.
  unfold sortedRun, tokensOf. rewrite fmap_cons. intros H.
  apply StronglySorted_inv in H as [H1 H2]. split; [done|].
  intros l Hl. rewrite Forall_forall in H2. apply H2.
  apply list_elem_of_fmap. by exists l.
Qed.

Lemma scanPush_sortedInv i rs hp rs' hp' :
  scanPush i rs hp = (rs', hp') -> sortedInv rs hp -> sortedInv rs' hp'.
Proof.
  intros Hs (Ho & Hle & Hsr).
  destruct (scanPush_cases i rs hp) as [(line & rest & Hk & E)|[Hk E]];
    rewrite E in Hs; simplify_eq; [|done].
  pose proof (Forall_lookup_1 _ _ _ _ Hsr Hk) as Hsl.
  apply sortedRun_cons in Hsl as [Hrest Hhd].
  split; [by apply HeapFacts.Push_ordered|]. split.
  - intros e r l He Hr Hl.
    rewrite HeapFacts.Push_Permutation in He.
    destruct (decide (fileIdx e = i)) as [Hei|Hei].
    + rewrite Hei in Hr. rewrite list_lookup_insert_eq in Hr
        by (by eapply lookup_lt_Some). simplify_eq.
      apply elem_of_cons in He as [->|He]; [by apply Hhd|].
      apply (Hle e (line :: r) l He); [done|by right].
    + rewrite list_lookup_insert_ne in Hr by done.
      apply elem_of_cons in He as [->|He]; [done|].
      by apply (Hle e r l).
  - apply Forall_insert; done.
Qed.

Lemma popSeq_sorted fuel rs hp lo :
  sortedInv rs hp ->
  (forall e, e ∈ hp -> String.le lo (word e)) ->
  StronglySorted HeapFacts.ele (popSeq fuel rs hp) /\
  Forall (fun e => String.le lo (word e)) (popSeq fuel rs hp).
Proof.
  revert rs hp lo. induction fuel as [|f IH]; intros rs hp lo Hinv Hlo.
  { split; constructor. }
  cbn [popSeq]. destruct (heap.Pop hp) as [[e hp']|] eqn:HP;
    [|split; constructor].
  destruct (scanPush (fileIdx e) rs hp') as [rs' hp''] eqn:Hs.
  destruct Hinv as (Ho & Hle & Hsr).
  pose proof (Pop_Some _ _ _ HP) as [Hperm Ho'].
  assert (sortedInv rs hp') as Hinv'.
  { split; [by apply Ho'|]. split; [|done].
    intros x r l Hx. apply Hle. rewrite Hperm. by right. }
  assert (forall x, x ∈ hp'' -> String.le (word e) (word x)) as Hmin.
  { intros x Hx.
    destruct (scanPush_cases (fileIdx e) rs hp')
      as [(line & rest & Hk & E)|[Hk E]]; rewrite E in Hs; simplify_eq.
    - rewrite HeapFacts.Push_Permutation in Hx.
      apply elem_of_cons in Hx as [->|Hx].
      + apply (Hle e (line :: rest) line); [|done|by left].
        rewrite Hperm. by left.
      + apply (HeapFacts.Pop_min hp e _ x Ho HP). rewrite Hperm. by right.
    - apply (HeapFacts.Pop_min hp e _ x Ho HP). rewrite Hperm. by right. }
  destruct (IH rs' hp'' (word e)) as [IH1 IH2];
    [by eapply scanPush_sortedInv|done|].
  assert (String.le lo (word e)) as Hloe.
  { apply Hlo. rewrite Hperm. by left. }
  split.
  - constructor; [done|]. eapply Forall_impl; [apply IH2|]. done.
  - constructor; [done|]. eapply Forall_impl; [apply IH2|].
    intros x Hx. simpl in Hx. by etrans.
Qed.

(** *** The first loop *)

Lemma foldl_seq_ind {S : Type} (f : S -> nat -> S) (P : nat -> S -> Prop)
    (n : nat) (s0 : S) :
  P 0 s0 -> (forall k s, k < n -> P k s -> P (Datatypes.S k) (f s k)) ->
  P n (foldl f s0 (seq 0 n)).
Proof.
  induction n as [|n IH]; intros H0 Hstep; [done|].
  rewrite seq_S, foldl_app. simpl. apply Hstep; [lia|].
  apply IH; [done|]. intros k s Hk. apply Hstep. lia.
Qed.

Lemma scanPush_length i rs hp rs' hp' :
  scanPush i rs hp = (rs', hp') -> length rs' = length rs.
Proof.
  destruct (scanPush_cases i rs hp) as [(line & rest & Hi & ->)|[_ ->]];
    intros [= <- <-]; [|done]. by rewrite length_insert.
Qed.

Lemma openAll_spec files :
  length (openAll files).1 = length files /\
  (openAll files).2 ++ pending (openAll files).1 ≡ₚ pending files /\
  live (openAll files).1 (openAll files).2 /\
  (Forall sortedRun files -> sortedInv (openAll files).1 (openAll files).2).
Proof.
  unfold openAll.
  set (P := fun (k : nat) (s : list run * fileEntryHeap.t) =>
    length s.1 = length files /\ s.2 ++ pending s.1 ≡ₚ pending files /\
    liveBelow k s.1 s.2 /\ (Forall sortedRun files -> sortedInv s.1 s.2)).
  assert (P (length files)
            (foldl (fun '(rs, hp) i => scanPush i rs hp)
                   (files, heap.Init []) (seq 0 (length files)))) as HP.
  { apply (foldl_seq_ind _ P).
    - split; [done|]. split; [done|]. split.
      + intros i r Hi. lia.
      + intros Hs. split; [apply HeapFacts.ordered_nil|]. split; [|done].
        intros e r l He. by apply elem_of_nil in He.
    - intros k [rs hp] Hk (Hlen & Hp & Hl & Hs). simpl in *.
      destruct (scanPush k rs hp) as [rs' hp'] eqn:E. unfold P. simpl.
      split; [by rewrite (scanPush_length _ _ _ _ _ E)|].
      split; [by rewrite (scanPush_Permutation _ _ _ _ _ E)|].
      split; [by eapply scanPush_liveBelow|].
      intros Hf. eapply scanPush_sortedInv; [done|]. by apply Hs. }
  destruct HP as (Hlen & Hp & Hl & Hs).
  split; [done|]. split; [done|]. split; [|done].
  intros i r Hi. apply Hl; [|done]. rewrite <- Hlen. by eapply lookup_lt_Some.
Qed.

(** *** The loop as a fold over the popped entries *)

Lemma loop_popSeq B fuel st :
  (wordBuffer (loop B fuel st), writer (loop B fuel st)) =
  foldl (bufStep B) (wordBuffer st, writer st)
        (recOf <$> popSeq fuel (readers st) (h st)).
Proof.
  revert st. induction fuel as [|f IH]; intros st; [done|].
  cbn [loop popSeq]. unfold fileEntryHeap.Len. case_decide as Hlen.
  - unfold step at 1 2.
    destruct (heap.Pop (h st)) as [[e hp]|] eqn:HP.
    + destruct (makeRoom B (word e) (wordBuffer st) (writer st))
        as [buf out] eqn:Hm.
      destruct (scanPush (fileIdx e) (readers st) hp) as [rs hp'] eqn:Hs.
      rewrite IH. cbn [readers h wordBuffer writer].
      rewrite fmap_cons. cbn [foldl]. do 2 f_equal.
      unfold bufStep, recOf. cbn [fst snd]. by rewrite Hm.
    + apply Pop_None_iff in HP. rewrite HP in Hlen. simpl in Hlen. lia.
  - destruct (h st) as [|x hp]; [done|]. simpl in Hlen. lia.
Qed.

(** The loop stops on its own test when it has fuel for every entry. *)
Lemma loop_exits B fuel st : measure st <= fuel -> h (loop B fuel st) = [].
Proof.
  revert st. induction fuel as [|f IH]; intros st Hm.
  { unfold measure in Hm. simpl. destruct (h st); [done|simpl in Hm; lia]. }
  cbn [loop]. unfold fileEntryHeap.Len. case_decide as Hlen.
  - apply IH. unfold step.
    destruct (heap.Pop (h st)) as [[e hp]|] eqn:HP.
    + destruct (makeRoom B (word e) (wordBuffer st) (writer st)) as [buf out].
      destruct (scanPush (fileIdx e) (readers st) hp) as [rs hp'] eqn:Hs.
      unfold measure in *. cbn [readers h].
      pose proof (scanPush_Permutation _ _ _ _ _ Hs) as Hp.
      apply Permutation_length in Hp. rewrite !length_app in Hp.
      unfold pending in Hp. rewrite !length_pendingFrom in Hp.
      apply Pop_Some in HP as [Hperm _].
      apply Permutation_length in Hperm. simpl in Hperm. lia.
    + apply Pop_None_iff in HP. rewrite HP in Hlen. simpl in Hlen. lia.
  - destruct (h st); [done|simpl in Hlen; lia].
Qed.

(** In [mergeBatch] the fuel is never what stops the loop. *)
Lemma mergeBatch_loop_done B files :
  let st0 := mkState (openAll files).1 (openAll files).2 ∅ [] in
  h (loop B (measure st0) st0) = [].
Proof. intros st0. by apply loop_exits. Qed.

(** *** The buffer over an ascending sequence of records *)

Definition rle (a b : record) : Prop := String.le a.1 b.1.

Lemma bufFold_sorted B (s : list record) buf (outR : list record) (T : Table.t) :
  outR ++ flushRecords buf = flushRecords T ->
  (forall k y, is_Some (T !! k) -> y ∈ s -> String.le k y.1) ->
  (forall r y, r ∈ outR -> y ∈ s -> Str.lt r.1 y.1) ->
  StronglySorted rle s ->
  exists outR' buf',
    foldl (bufStep B) (buf, formatRecord <$> outR) s
      = (buf', formatRecord <$> outR') /\
    outR' ++ flushRecords buf' = flushRecords (accumulate T s).
Proof.
  revert buf outR T. induction s as [|[w c] s IH]; intros buf outR T E H2 H3 Hs.
  { exists outR, buf. done. }
  apply StronglySorted_inv in Hs as [Hs Hw]. rewrite Forall_forall in Hw.
  (* the keys of the buffer are keys of the table *)
  assert (forall k v, buf !! k = Some v -> T !! k = Some v) as Hsub.
  { intros k v Hk. apply elem_of_flushRecords. rewrite <- E.
    apply elem_of_app. right. by apply elem_of_flushRecords. }
  assert (forall k v, T !! k = Some v ->
            (k, v) ∈ outR \/ buf !! k = Some v) as Hdom.
  { intros k v Hk. apply elem_of_flushRecords in Hk. rewrite <- E in Hk.
    apply elem_of_app in Hk as [?|Hk]; [by left|right].
    by apply elem_of_flushRecords. }
  assert (forall k, is_Some (T !! k) -> String.le k w) as Hmax.
  { intros k Hk. apply (H2 k (w, c) Hk). by left. }
  cbn [foldl]. change (accumulate T ((w, c) :: s))
    with (accumulate (incr T w c) s).
  unfold bufStep at 2. cbn [fst snd]. unfold makeRoom.
  destruct (buf !! w) as [v0|] eqn:Hbw.
  - (* the token is in the buffer: it is the largest key *)
    rewrite decide_False by (intros [? _]; done).
    pose proof (Hsub w v0 Hbw) as HTw.
    assert (outR ++ flushRecords (delete w buf) = flushRecords (delete w T))
      as E'.
    { rewrite (flushRecords_last_max buf w v0 Hbw) in E.
      2:{ intros k [v Hk]. apply Hmax. exists v. by apply Hsub. }
      rewrite (flushRecords_last_max T w v0 HTw Hmax) in E.
      rewrite app_assoc in E. by apply app_inj_tail in E as [? _]. }
    apply IH; [| | |done].
    + unfold incr, get. rewrite Hbw, HTw. simpl.
      rewrite (flushRecords_update_max buf w v0) by
        (done || intros k [v Hk]; apply Hmax; exists v; by apply Hsub).
      rewrite (flushRecords_update_max T w v0) by done.
      by rewrite app_assoc, E'.
    + intros k y [v Hk] Hy. rewrite lookup_incr in Hk.
      case_decide as Hkw.
      * subst k. by apply (Hw y).
      * apply (H2 k y); [by eexists|by right].
    + intros r y Hr Hy. apply (H3 r y Hr). by right.
  - (* a new token: it is above every key met so far *)
    assert (forall k, is_Some (T !! k) -> Str.lt k w) as Hlt.
    { intros k [v Hk]. destruct (Hdom k v Hk) as [Hin|Hin].
      - apply (H3 (k, v) (w, c) Hin). by left.
      - apply StrFacts.lt_le_ne. split; [apply Hmax; by eexists|].
        intros ->. congruence. }
    assert (T !! w = None) as HTw.
    { destruct (T !! w) eqn:ETw; [|done].
      destruct (irreflexivity Str.lt w). apply Hlt. by eexists. }
    assert (incr T w c = <[w := GoInt.add 0 c]> T) as ->.
    { unfold incr, get. by rewrite HTw. }
    set (bo := if decide (None = None /\ B <= size buf)
               then (∅, flushBufferToWriter buf (formatRecord <$> outR))
               else (buf, formatRecord <$> outR)).
    assert (exists outR1 buf1, bo = (buf1, formatRecord <$> outR1) /\
              outR1 ++ flushRecords buf1 = flushRecords T /\
              (forall k v, buf1 !! k = Some v -> T !! k = Some v) /\
              (forall r, r ∈ outR1 -> r ∈ outR \/ r ∈ flushRecords buf))
      as (outR1 & buf1 & -> & E1 & Hsub1 & Hout1).
    { unfold bo. case_decide.
      - exists (outR ++ flushRecords buf), ∅. split.
        + unfold flushBufferToWriter, flushLines. by rewrite fmap_app.
        + split; [by rewrite flushRecords_empty, app_nil_r|]. split.
          * intros k v Hk. by rewrite lookup_empty in Hk.
          * intros r Hr. by apply elem_of_app in Hr.
      - exists outR, buf. split; [done|]. split; [done|]. split; [done|].
        intros r Hr. by left. }
    apply IH; [| | |done].
    + assert (incr buf1 w c = <[w := GoInt.add 0 c]> buf1) as ->.
      { unfold incr, get. destruct (buf1 !! w) eqn:Eb; [|done].
        apply Hsub1 in Eb. congruence. }
      rewrite (flushRecords_insert_max buf1).
      2:{ intros k [v Hk]. apply Hlt. exists v. by apply Hsub1. }
      rewrite (flushRecords_insert_max T) by done.
      by rewrite app_assoc, E1.
    + intros k y [v Hk] Hy. rewrite lookup_insert in Hk.
      case_decide as Hkw.
      * subst k. by apply (Hw y).
      * apply (H2 k y); [by eexists|by right].
    + intros [k v] y Hr Hy. simpl.
      apply (StrFacts.lt_le_trans _ w); [|by apply (Hw y)].
      destruct (Hout1 _ Hr) as [Hin|Hin].
      * apply (H3 (k, v) (w, c) Hin). by left.
      * apply elem_of_flushRecords in Hin. apply Hlt. exists v. by apply Hsub.
Qed.

(** *** [mergeBatch] on ascending runs *)

(** The records a reader gets from the runs, run after run. *)
Definition recordsOf (files : list run) : list record :=
  parseLine <$> concat files.

Lemma mergeBatch_popSeq B files :
  exists s : list fileEntry,
    s ≡ₚ pending files /\
    (Forall sortedRun files -> StronglySorted HeapFacts.ele s) /\
    mergeBatch B files =
      let bo := foldl (bufStep B) (∅, []) (recOf <$> s) in
      bo.2 ++ flushLines bo.1.
Proof.
  unfold mergeBatch.
  destruct (openAll_spec files) as (Hlen & Hp & Hl & Hs).
  destruct (openAll files) as [rs hp]. simpl in *.
  set (st0 := mkState rs hp ∅ []).
  exists (popSeq (measure st0) rs hp). split; [|split].
  - rewrite popSeq_Permutation; [done|done|]. by unfold measure, st0.
  - intros Hf.
    apply (popSeq_sorted (measure st0) rs hp EmptyString (Hs Hf)).
    intros e _. apply StrFacts.empty_le.
  - pose proof (loop_popSeq B (measure st0) st0) as Hloop.
    cbn [wordBuffer writer readers h st0] in Hloop.
    rewrite <- Hloop. cbn [fst snd].
    unfold flushBufferToWriter. case_decide as Hsz; [done|].
    assert (wordBuffer (loop B (measure st0) st0) = ∅) as ->.
    { apply map_size_empty_iff. lia. }
    unfold flushLines. rewrite flushRecords_empty. simpl.
    by rewrite app_nil_r.
Qed.

(** Merging ascending runs writes the sorted flush of the table that
    accumulates all their records. *)
Lemma mergeBatch_sorted B files :
  Forall sortedRun files ->
  mergeBatch B files = flushLines (accumulate ∅ (recordsOf files)).
Proof.
  intros Hf.
  destruct (mergeBatch_popSeq B files) as (s & Hp & Hs & ->).
  specialize (Hs Hf).
  destruct (bufFold_sorted B (recOf <$> s) ∅ [] ∅) as (outR & buf & E & HE).
  - by rewrite flushRecords_empty.
  - intros k y [v Hk]. by rewrite lookup_empty in Hk.
  - intros r y Hr. by apply elem_of_nil in Hr.
  - clear -Hs. induction Hs as [|e l Hl IH He]; [constructor|].
    rewrite fmap_cons. constructor; [done|].
    rewrite Forall_fmap. eapply Forall_impl; [apply He|]. done.
  - simpl in E. rewrite E. cbn [fst snd].
    unfold flushLines. rewrite <- fmap_app, HE. do 2 f_equal.
    apply accumulate_Permutation. unfold recordsOf.
    by rewrite <- pending_records, Hp.
Qed.

(** *** Runs written by a flush *)

(** A run that is the flush of a table which parses back. *)
Definition canonical (r : run) : Prop :=
  exists T : Table.t, wfTable T /\ r = flushLines T.

(** A well-formed sorted run: its tokens strictly increase and each of its
    lines is the text of the record it parses to. *)
Definition wellFormedRun (r : run) : Prop :=
  StronglySorted Str.lt (tokensOf r) /\
  formatRecord <$> (parseLine <$> r) = r.

Lemma tokensOf_fst (r : run) : tokensOf r = (parseLine <$> r).*1.
Proof. unfold tokensOf. by rewrite <- list_fmap_compose. Qed.

Lemma canonical_strict r : canonical r -> StronglySorted Str.lt (tokensOf r).
Proof.
  intros (T & HT & ->). rewrite tokensOf_fst, parse_flushLines by done.
  apply flushRecords_sorted.
Qed.

Lemma canonical_sortedRun r : canonical r -> sortedRun r.
Proof. intros H. by apply StronglySorted_lt_le, canonical_strict. Qed.

Lemma canonical_flush r :
  canonical r -> r = flushLines (accumulate ∅ (parseLine <$> r)).
Proof.
  intros (T & HT & ->). rewrite parse_flushLines by done.
  rewrite accumulate_flushRecords; [done|]. intros w c H. apply (HT w c H).
Qed.


(** The well-formed sorted runs are the flushes of tables that parse back. *)
Lemma wellFormedRun_canonical r : wellFormedRun r <-> canonical r.
Proof.
  split.
  - intros [Hs Hf]. rewrite tokensOf_fst in Hs.
    set (R := parseLine <$> r) in *.
    pose proof (StronglySorted_lt_NoDup _ Hs) as Hnd.
    exists (list_to_map R). split.
    + intros w c Hw. apply elem_of_list_to_map in Hw; [|done].
      apply list_elem_of_fmap in Hw as (l & E & _).
      pose proof (RecordFacts.parseLine_word_noTab l).
      pose proof (RecordFacts.parseLine_count_inRange l).
      destruct (parseLine l). by simplify_eq.
    + unfold flushLines. rewrite (flushRecords_unique _ R); [done|done|].
      intros w c. by apply elem_of_list_to_map.
  - intros (T & HT & ->). split; [by apply canonical_strict; exists T|].
    by rewrite parse_flushLines.
Qed.


Lemma recordsOf_noTab files :
  Forall (fun r : record => containsTab r.1 = false) (recordsOf files).
Proof.
  unfold recordsOf. rewrite Forall_fmap. apply Forall_forall.
  intros l _. apply RecordFacts.parseLine_word_noTab.
Qed.

Lemma recordsOf_app f1 f2 : recordsOf (f1 ++ f2) = recordsOf f1 ++ recordsOf f2.
Proof. unfold recordsOf. by rewrite concat_app, fmap_app. Qed.

Lemma recordsOf_cons r files :
  recordsOf (r :: files) = (parseLine <$> r) ++ recordsOf files.
Proof. unfold recordsOf. simpl. by rewrite fmap_app. Qed.

Lemma mergeBatch_canonical B files :
  Forall sortedRun files -> canonical (mergeBatch B files).
Proof.
  intros Hf. exists (accumulate ∅ (recordsOf files)). split.
  - apply wfTable_accumulate; [apply wfTable_empty|apply recordsOf_noTab].
  - by apply mergeBatch_sorted.
Qed.

Lemma mergeBatch_sameTable B files :
  Forall sortedRun files ->
  sameTable (parseLine <$> mergeBatch B files) (recordsOf files).
Proof.
  intros Hf. rewrite mergeBatch_sorted by done.
  rewrite parse_flushLines.
  - apply sameTable_flushRecords.
  - apply wfTable_accumulate; [apply wfTable_empty|apply recordsOf_noTab].
Qed.

(** *** The buffer never exceeds the bound *)

Lemma makeRoom_bound B w c buf out :
  0 < B -> size buf <= B ->
  size (makeRoom B w buf out).1 <= B /\
  size (incr (makeRoom B w buf out).1 w c) <= B.
Proof.
  intros HB Hsz. unfold makeRoom. case_decide as Hd; cbn [fst].
  - rewrite map_size_empty. split; [lia|].
    pose proof (size_incr_le ∅ w c) as H. rewrite map_size_empty in H. lia.
  - split; [done|].
    destruct (buf !! w) as [v|] eqn:E.
    + rewrite size_incr_Some by (by eexists). done.
    + pose proof (size_incr_le buf w c).
      destruct (decide (B <= size buf)); [|lia]. destruct Hd. done.
Qed.

Lemma wordBuffer_step B st e hp :
  heap.Pop (h st) = Some (e, hp) ->
  wordBuffer (step B st) =
    incr (makeRoom B (word e) (wordBuffer st) (writer st)).1 (word e) (count e).
Proof.
  intros HP. unfold step. rewrite HP.
  destruct (makeRoom B (word e) (wordBuffer st) (writer st)) as [buf out].
  by destruct (scanPush (fileIdx e) (readers st) hp).
Qed.

Lemma buffersFrom_bound B fuel st :
  0 < B -> size (wordBuffer st) <= B ->
  Forall (fun b : Table.t => size b <= B) (buffersFrom B fuel st).
Proof.
  intros HB. revert st. induction fuel as [|f IH]; intros st Hsz; [constructor|].
  cbn [buffersFrom]. destruct (heap.Pop (h st)) as [[e hp]|] eqn:HP;
    [|constructor].
  destruct (makeRoom_bound B (word e) (count e) (wordBuffer st) (writer st)
              HB Hsz) as [H1 H2].
  rewrite <- (wordBuffer_step B st e hp HP) in H2.
  constructor; [done|]. constructor; [done|]. by apply IH.
Qed.

Lemma buffers_bound B files :
  0 < B -> Forall (fun b : Table.t => size b <= B) (buffers B files).
Proof.
  intros HB. unfold buffers. destruct (openAll files) as [rs hp].
  constructor; [rewrite map_size_empty; lia|].
  apply buffersFrom_bound; [done|]. simpl. rewrite map_size_empty. lia.
Qed.

(** The buffers listed are those of the loop: the last one is the buffer
    the loop ends with. *)
Lemma buffersFrom_last B fuel st :
  last (wordBuffer st :: buffersFrom B fuel st) = Some (wordBuffer (loop B fuel st)).
Proof.
  revert st. induction fuel as [|f IH]; intros st; [done|].
  cbn [buffersFrom loop]. unfold fileEntryHeap.Len.
  destruct (heap.Pop (h st)) as [[e hp]|] eqn:HP.
  - rewrite decide_True.
    2:{ destruct (h st); [done|simpl; lia]. }
    rewrite <- IH. by rewrite !last_cons_cons.
  - apply Pop_None_iff in HP. rewrite HP. done.
Qed.

(** *** Every token read reaches the output *)

Section Covers.

(** A token [w] and a property [Q] of the counts written for it. *)
Variable w : string.
Variable Q : Z -> Prop.

(** [w] is in the buffer, or a line for it is already written. *)
Definition recorded (buf : Table.t) (out : run) : Prop :=
  is_Some (buf !! w) \/ exists c, Q c /\ formatRecord (w, c) ∈ out.

Definition bufQ (buf : Table.t) : Prop := forall v, buf !! w = Some v -> Q v.

(** Adding the count of a record for [w] keeps [Q]. *)
Definition keepsQ (r : record) : Prop :=
  r.1 = w -> forall v, v = 0%Z \/ Q v -> Q (GoInt.add v r.2).

Lemma flushLines_elem buf v : buf !! w = Some v -> formatRecord (w, v) ∈ flushLines buf.
Proof.
  intros H. unfold flushLines. apply list_elem_of_fmap.
  exists (w, v). split; [done|]. by apply elem_of_flushRecords.
Qed.

Lemma bufStep_recorded B buf out r :
  keepsQ r -> bufQ buf ->
  bufQ (bufStep B (buf, out) r).1 /\
  (recorded buf out \/ r.1 = w ->
   recorded (bufStep B (buf, out) r).1 (bufStep B (buf, out) r).2).
Proof.
  intros Hk Hq. unfold bufStep, makeRoom. cbn [fst snd].
  case_decide as Hd; cbn [fst snd].
  - split.
    + intros v. rewrite lookup_incr. case_decide as Hw; [|by rewrite lookup_empty].
      intros [= <-]. unfold get. rewrite lookup_empty. simpl.
      apply Hk; [done|by left].
    + intros [[[v Hv]|(c & Hc & Hin)]|Hw].
      * right. exists v. split; [by apply Hq|].
        unfold flushBufferToWriter. apply elem_of_app. right.
        by apply flushLines_elem.
      * right. exists c. split; [done|].
        unfold flushBufferToWriter. apply elem_of_app. by left.
      * left. rewrite lookup_incr, decide_True by done. by eexists.
  - split.
    + intros v. rewrite lookup_incr. case_decide as Hw; [|apply Hq].
      intros [= <-]. apply Hk; [done|]. rewrite Hw. unfold get.
      destruct (buf !! w) as [v0|] eqn:E; simpl; [right; by apply Hq|by left].
    + intros [[[v Hv]|Hout]|Hw].
      * left. rewrite lookup_incr. case_decide; by eexists.
      * by right.
      * left. rewrite lookup_incr, decide_True by done. by eexists.
Qed.

Lemma bufFold_recorded B (s : list record) buf out :
  Forall keepsQ s -> bufQ buf ->
  (recorded buf out \/ w ∈ s.*1) ->
  bufQ (foldl (bufStep B) (buf, out) s).1 /\
  recorded (foldl (bufStep B) (buf, out) s).1 (foldl (bufStep B) (buf, out) s).2.
Proof.
  revert buf out. induction s as [|r s IH]; intros buf out Hk Hq Hr.
  { simpl. split; [done|]. destruct Hr as [?|Hr]; [done|].
    by apply elem_of_nil in Hr. }
  apply Forall_cons in Hk as [Hkr Hk].
  destruct (bufStep_recorded B buf out r Hkr Hq) as [Hq' Hr'].
  cbn [foldl]. destruct (bufStep B (buf, out) r) as [buf' out'] eqn:E.
  cbn [fst snd] in *. apply IH; [done|done|].
  rewrite fmap_cons in Hr.
  destruct Hr as [Hr|[->|Hr]%elem_of_cons]; [left|left|by right];
    apply Hr'; [by left|by right].
Qed.

Lemma mergeBatch_recorded B files :
  Forall keepsQ (recordsOf files) -> w ∈ (recordsOf files).*1 ->
  exists c, Q c /\ formatRecord (w, c) ∈ mergeBatch B files.
Proof.
  intros Hk Hw.
  destruct (mergeBatch_popSeq B files) as (s & Hp & _ & ->).
  assert (recOf <$> s ≡ₚ recordsOf files) as Hrec.
  { unfold recordsOf. by rewrite <- pending_records, Hp. }
  destruct (bufFold_recorded B (recOf <$> s) ∅ []) as [Hq Hr].
  - by rewrite Hrec.
  - intros v. by rewrite lookup_empty.
  - right. by rewrite Hrec.
  - cbn zeta. destruct Hr as [[v Hv]|(c & Hc & Hin)].
    + exists v. split; [by apply Hq|]. apply elem_of_app. right.
      by apply flushLines_elem.
    + exists c. split; [done|]. apply elem_of_app. by left.
Qed.

End Covers.

Lemma elem_of_concat {A} (x : A) (ls : list (list A)) :
  x ∈ concat ls <-> exists l, x ∈ l /\ l ∈ ls.
Proof.
  induction ls as [|l ls IH]; simpl.
  - rewrite elem_of_nil. split; [done|]. intros (l & _ & Hl).
    by apply elem_of_nil in Hl.
  - rewrite elem_of_app, IH. split.
    + intros [H|(l' & H1 & H2)]; [exists l; split; [done|by left]|].
      exists l'. split; [done|by right].
    + intros (l' & H1 & [->|H2]%elem_of_cons); [by left|right]. by exists l'.
Qed.


(** A token whose records all count 0 is written with count 0. *)
Lemma mergeBatch_zero B files w :
  w ∈ (recordsOf files).*1 ->
  (forall r, r ∈ recordsOf files -> r.1 = w -> r.2 = 0%Z) ->
  formatRecord (w, 0%Z) ∈ mergeBatch B files.
Proof.
  intros Hw Hz.
  destruct (mergeBatch_recorded w (fun c => c = 0%Z) B files) as (c & -> & Hc);
    [|done|done].
  apply Forall_forall. intros r Hr Hrw v Hv.
  rewrite (Hz r Hr Hrw). by destruct Hv as [-> | ->].
Qed.

End MergeFacts.

(** ** The input phase *)

Module InputFacts.

Import Record Table TableFacts Merge MergeFacts Input.

Local Open Scope nat_scope.

(** The records of a token stream: each token counts once. *)
Definition ones (p : list string) : list record := (fun w => (w, 1%Z)) <$> p.

Definition noTab (w : string) : Prop := containsTab w = false.

Section WithTrimSpace.

Variable TrimSpace : string -> string.
Variable B : nat.

Abbreviation step := (Input.step TrimSpace B).
Abbreviation tokens := (Input.tokens TrimSpace).

Lemma tokens_cons line rest :
  tokens (line :: rest) =
    if decide (TrimSpace line = EmptyString) then tokens rest
    else TrimSpace line :: tokens rest.
Proof.
  unfold Input.tokens. rewrite fmap_cons, filter_cons.
  repeat case_decide; done.
Qed.

(** What the loop keeps true: the table parses back, the runs written are
    flushes, and runs and table together count the tokens read. *)
Definition inv (st : state) (p : list string) : Prop :=
  wfTable (wordCount st) /\
  Forall canonical (tempFiles st) /\
  sameTable (recordsOf (tempFiles st) ++ flushRecords (wordCount st)) (ones p).

Lemma wfTable_inRange T : wfTable T -> forall w c, T !! w = Some c -> GoInt.inRange c.
Proof. intros HT w c H. apply (HT w c H). Qed.

Lemma recordsOf_snoc files r :
  recordsOf (files ++ [r]) = recordsOf files ++ (parseLine <$> r).
Proof. rewrite recordsOf_app, recordsOf_cons. unfold recordsOf. simpl.
  by rewrite app_nil_r. Qed.

Lemma flush_incr_sameTable T w c :
  wfTable T ->
  sameTable (flushRecords (incr T w c)) (flushRecords T ++ [(w, c)]).
Proof.
  intros HT. unfold sameTable.
  rewrite accumulate_snoc.
  rewrite (accumulate_flushRecords T) by by apply wfTable_inRange.
  apply accumulate_flushRecords. intros k v. rewrite lookup_incr.
  case_decide; [intros [= <-]; apply GoIntFacts.add_inRange|].
  by apply wfTable_inRange.
Qed.

Lemma countWord_inv st p w :
  noTab w -> inv st p -> inv (countWord w st) (p ++ [w]).
Proof.
  intros Hw (HT & Hc & Hs). unfold countWord. split; [|split]; simpl.
  - by apply wfTable_incr.
  - done.
  - unfold ones. rewrite fmap_app. simpl. fold (ones p).
    etrans; [apply sameTable_app; [reflexivity|apply flush_incr_sameTable; done]|].
    rewrite app_assoc. by apply sameTable_app.
Qed.

Lemma spill_inv st p : inv st p -> inv (spill B st) p.
Proof.
  intros (HT & Hc & Hs). unfold spill. case_decide; [|done].
  split; [|split]; simpl.
  - apply wfTable_empty.
  - apply Forall_app. split; [done|]. constructor; [|done]. by exists (wordCount st).
  - rewrite recordsOf_snoc, flushRecords_empty, app_nil_r.
    unfold flushToTempFile. by rewrite parse_flushLines.
Qed.

Lemma loop_inv lines st p :
  Forall noTab (tokens lines) -> inv st p ->
  inv (foldl step st lines) (p ++ tokens lines).
Proof.
  revert st p. induction lines as [|line rest IH]; intros st p Ht Hi.
  { simpl. by rewrite app_nil_r. }
  rewrite tokens_cons in Ht |- *. cbn [foldl]. unfold Input.step at 2.
  case_decide as Hw; [by apply IH|].
  apply Forall_cons in Ht as [Hw1 Ht].
  replace (p ++ TrimSpace line :: tokens rest)
    with ((p ++ [TrimSpace line]) ++ tokens rest) by by rewrite <- app_assoc.
  apply IH; [done|]. by apply spill_inv, countWord_inv.
Qed.

Lemma inv_init : inv (mkState ∅ []) [].
Proof.
  split; [apply wfTable_empty|]. split; [done|].
  simpl. by rewrite flushRecords_empty.
Qed.

(** The runs of the input phase are flushes, and together they count the
    tokens of the input. *)
Lemma processInputFile_spec lines :
  Forall noTab (tokens lines) ->
  Forall canonical (processInputFile TrimSpace B lines) /\
  sameTable (recordsOf (processInputFile TrimSpace B lines)) (ones (tokens lines)).
Proof.
  intros Ht. unfold processInputFile, loop.
  destruct (loop_inv lines (mkState ∅ []) [] Ht inv_init) as (HT & Hc & Hs).
  simpl in Hs. case_decide as Hsz.
  - split.
    + apply Forall_app. split; [done|]. constructor; [|done].
      by eexists.
    + rewrite recordsOf_snoc. unfold flushToTempFile.
      by rewrite parse_flushLines.
  - split; [done|].
    assert (wordCount (foldl step (mkState ∅ []) lines) = ∅) as E.
    { apply map_size_empty_iff. lia. }
    by rewrite E, flushRecords_empty, app_nil_r in Hs.
Qed.

(** Every token is a key of the table of one of the runs, whatever the
    tokens are. *)
Definition covered (st : state) (w : string) : Prop :=
  is_Some (wordCount st !! w) \/
  exists T : Table.t, flushLines T ∈ tempFiles st /\ is_Some (T !! w).

Lemma countWord_covered st w k :
  covered st k \/ k = w -> covered (countWord w st) k.
Proof.
  unfold covered, countWord. simpl. rewrite lookup_incr.
  intros [[H|H]| ->]; [left|by right|left].
  - case_decide; [by eexists|done].
  - rewrite decide_True by done. by eexists.
Qed.

Lemma spill_covered st k : covered st k -> covered (spill B st) k.
Proof.
  unfold covered, spill. case_decide as Hsz; [|done]. simpl.
  intros [H|(T & HT & Hk)]; right.
  - exists (wordCount st). split; [|done]. apply elem_of_app. right.
    by apply list_elem_of_singleton.
  - exists T. split; [|done]. apply elem_of_app. by left.
Qed.

Lemma loop_covered lines st k :
  covered st k \/ k ∈ tokens lines -> covered (foldl step st lines) k.
Proof.
  revert st. induction lines as [|line rest IH]; intros st.
  { simpl. intros [H|H]; [done|]. by apply elem_of_nil in H. }
  rewrite tokens_cons. cbn [foldl]. unfold Input.step at 2.
  case_decide as Hw; [apply IH|].
  intros [H|[->|H]%elem_of_cons]; apply IH; [left|left|by right];
    apply spill_covered, countWord_covered; [by left|by right].
Qed.

Lemma processInputFile_covered lines k :
  k ∈ tokens lines ->
  exists T : Table.t,
    flushLines T ∈ processInputFile TrimSpace B lines /\ is_Some (T !! k).
Proof.
  intros Hk. unfold processInputFile, loop.
  destruct (loop_covered lines (mkState ∅ []) k (or_intror Hk))
    as [H|(T & HT & HTk)].
  - rewrite decide_True.
    + exists (wordCount (foldl step (mkState ∅ []) lines)). split; [|done].
      apply elem_of_app. right. by apply list_elem_of_singleton.
    + destruct H as [v Hv].
      destruct (decide (size (wordCount (foldl step (mkState ∅ []) lines)) = 0))
        as [E|]; [|lia].
      apply map_size_empty_iff in E. rewrite E, lookup_empty in Hv. done.
  - exists T. split; [|done]. case_decide; [|done].
    apply elem_of_app. by left.
Qed.


(** No token, no run. *)
Lemma loop_no_token lines st :
  tokens lines = [] -> foldl step st lines = st.
Proof.
  revert st. induction lines as [|line rest IH]; intros st; [done|].
  rewrite tokens_cons. cbn [foldl]. unfold Input.step at 2.
  case_decide; [apply IH|done].
Qed.

Lemma processInputFile_no_token lines :
  tokens lines = [] -> processInputFile TrimSpace B lines = [].
Proof.
  intros Ht. unfold processInputFile, loop. rewrite loop_no_token by done.
  simpl. rewrite decide_False; [done|]. rewrite map_size_empty. lia.
Qed.

Lemma ones_keys p : (ones p).*1 = p.
Proof.
  unfold ones. rewrite <- list_fmap_compose.
  rewrite <- (list_fmap_id p) at 2. by apply list_fmap_ext.
Qed.

Lemma processInputFile_nonempty lines :
  Forall noTab (tokens lines) -> tokens lines <> [] ->
  processInputFile TrimSpace B lines <> [].
Proof.
  intros Ht Hne E. destruct (processInputFile_spec lines Ht) as [_ Hs].
  rewrite E in Hs. pose proof (proj1 (sameTable_iff _ _) Hs) as Hs'.
  destruct (tokens lines) as [|w p]; [done|].
  destruct (Hs' w) as [[_ Hin] _]. apply elem_of_nil in Hin; [done|].
  rewrite ones_keys. by left.
Qed.

(** *** The table never exceeds the bound *)

Lemma tablesFrom_bound st lines :
  0 < B -> size (wordCount st) < B ->
  Forall (fun t : Table.t => size t <= B) (tablesFrom TrimSpace B st lines).
Proof.
  intros HB. revert st. induction lines as [|line rest IH]; intros st Hsz;
    [constructor|].
  cbn [tablesFrom]. case_decide; [by apply IH|].
  pose proof (size_incr_le (wordCount st) (TrimSpace line) 1) as Hle.
  assert (size (wordCount (spill B (countWord (TrimSpace line) st))) < B) as Hs.
  { unfold spill. case_decide; simpl in *; [rewrite map_size_empty|]; lia. }
  constructor; [simpl; lia|]. constructor; [lia|]. by apply IH.
Qed.

Lemma tables_bound lines :
  0 < B -> Forall (fun t : Table.t => size t <= B) (tables TrimSpace B lines).
Proof.
  intros HB. unfold tables. constructor; [rewrite map_size_empty; lia|].
  apply tablesFrom_bound; [done|]. simpl. rewrite map_size_empty. lia.
Qed.

(** The tables listed are those of the loop. *)
Lemma tablesFrom_last st lines :
  last (wordCount st :: tablesFrom TrimSpace B st lines)
    = Some (wordCount (foldl step st lines)).
Proof.
  revert st. induction lines as [|line rest IH]; intros st; [done|].
  cbn [tablesFrom foldl]. unfold Input.step at 2.
  case_decide; [apply IH|]. rewrite <- IH. by rewrite !last_cons_cons.
Qed.

End WithTrimSpace.

End InputFacts.

(** ** The merge scheduler *)

Module SchedulerFacts.

Import Record Table TableFacts Merge MergeFacts Scheduler.

Local Open Scope nat_scope.

Lemma roundFrom_nil B fuel : roundFrom B fuel [] = [].
Proof. by destruct fuel. Qed.

Lemma roundFrom_cons B fuel f files :
  roundFrom B (S fuel) (f :: files) =
    mergeBatch B (take B (f :: files)) :: roundFrom B fuel (drop B (f :: files)).
Proof. reflexivity. Qed.

(** With a fan-in of at least 2 a round halves the number of runs, rounded
    up, and leaves at least one. *)
Lemma roundFrom_length B fuel files :
  2 <= B -> length files <= fuel -> files <> [] ->
  1 <= length (roundFrom B fuel files) /\
  2 * length (roundFrom B fuel files) <= length files + 1.
Proof.
  intros HB. revert files. induction fuel as [|f IH]; intros files Hf Hne.
  { destruct files; [done|simpl in Hf; lia]. }
  destruct files as [|x files]; [done|]. rewrite roundFrom_cons.
  cbn [length]. destruct (drop B (x :: files)) as [|y rest] eqn:E.
  - rewrite roundFrom_nil. simpl. lia.
  - destruct (IH (y :: rest)) as [H1 H2]; [|done|].
    + rewrite <- E, length_drop. simpl in *. lia.
    + assert (length (y :: rest) = length (x :: files) - B) as Hl
        by by rewrite <- E, length_drop.
      cbn [length] in *. lia.
Qed.

(** With a fan-in of 1 every batch is one run: a round keeps their number. *)
Lemma roundFrom_length_1 fuel files :
  length files <= fuel -> length (roundFrom 1 fuel files) = length files.
Proof.
  revert files. induction fuel as [|f IH]; intros files Hf.
  { destruct files; [done|simpl in Hf; lia]. }
  destruct files as [|x files]; [done|]. rewrite roundFrom_cons.
  cbn [length drop]. rewrite drop_0, IH; [done|simpl in Hf; lia].
Qed.

Lemma roundFrom_spec B fuel files :
  1 <= B -> length files <= fuel -> Forall sortedRun files ->
  Forall canonical (roundFrom B fuel files) /\
  sameTable (recordsOf (roundFrom B fuel files)) (recordsOf files).
Proof.
  intros HB. revert files. induction fuel as [|f IH]; intros files Hf Hs.
  { destruct files; [done|simpl in Hf; lia]. }
  destruct files as [|x files]; [done|]. rewrite roundFrom_cons.
  set (fs := x :: files) in *.
  assert (Forall sortedRun (take B fs)) as Ht by by apply Forall_take.
  assert (Forall sortedRun (drop B fs)) as Hd by by apply Forall_drop.
  destruct (IH (drop B fs)) as [IH1 IH2]; [|done|].
  { rewrite length_drop. unfold fs in *. simpl in *. lia. }
  split.
  - constructor; [by apply mergeBatch_canonical|done].
  - rewrite recordsOf_cons. rewrite <- (take_drop B fs) at 3.
    rewrite recordsOf_app. apply sameTable_app; [|done].
    by apply mergeBatch_sameTable.
Qed.

Lemma first_singleton (f : run) : first [f] = Returns f.
Proof. reflexivity. Qed.

Lemma mergeInBatches_short B fuel files :
  length files <= 1 -> mergeInBatches B fuel files = first files.
Proof.
  intros Hl. destruct fuel; simpl; rewrite decide_False by lia; done.
Qed.

Lemma mergeInBatches_long B fuel files :
  1 < length files ->
  mergeInBatches B (S fuel) files = mergeInBatches B fuel (round B files).
Proof. intros Hl. simpl. by rewrite decide_True. Qed.

(** With a fan-in of at least 2 the scheduler returns, after fewer rounds
    than there are runs, the flush of the table of all the records. *)
Lemma mergeInBatches_returns B fuel files :
  2 <= B -> Forall canonical files -> files <> [] -> length files <= S fuel ->
  mergeInBatches B fuel files
    = Returns (flushLines (accumulate ∅ (recordsOf files))).
Proof.
  intros HB. revert files. induction fuel as [|f IH]; intros files Hc Hne Hl.
  - destruct files as [|x [|y files]]; [done| |simpl in Hl; lia].
    rewrite mergeInBatches_short by (simpl; lia). rewrite first_singleton.
    apply Forall_cons in Hc as [Hx _]. f_equal.
    rewrite recordsOf_cons. unfold recordsOf at 1. simpl. rewrite app_nil_r.
    by apply canonical_flush.
  - destruct (decide (length files <= 1)) as [Hs|Hs].
    + destruct files as [|x [|y files]]; [done| |simpl in Hs; lia].
      rewrite mergeInBatches_short by (simpl; lia). rewrite first_singleton.
      apply Forall_cons in Hc as [Hx _]. f_equal.
      rewrite recordsOf_cons. unfold recordsOf at 1. simpl. rewrite app_nil_r.
      by apply canonical_flush.
    + rewrite mergeInBatches_long by lia. unfold round.
      assert (Forall sortedRun files) as Hsr.
      { eapply Forall_impl; [apply Hc|]. apply canonical_sortedRun. }
      destruct (roundFrom_spec B (length files) files) as [H1 H2];
        [lia|done|done|].
      destruct (roundFrom_length B (length files) files) as [H3 H4];
        [done|done|done|].
      rewrite IH; [|done| |lia].
      * do 2 f_equal. apply H2.
      * intros E. rewrite E in H3. simpl in H3. lia.
Qed.

(** With a fan-in of at least 2 the scheduler always returns when it is
    given a run: every round leaves fewer runs, and at least one. *)
Lemma mergeInBatches_terminates B fuel files :
  2 <= B -> files <> [] -> length files <= S fuel ->
  exists out, mergeInBatches B fuel files = Returns out.
Proof.
  intros HB. revert files. induction fuel as [|f IH]; intros files Hne Hl.
  - destruct files as [|x [|y files]]; [done| |simpl in Hl; lia].
    exists x. by rewrite mergeInBatches_short by (simpl; lia).
  - destruct (decide (length files <= 1)) as [Hs|Hs].
    + destruct files as [|x [|y files]]; [done| |simpl in Hs; lia].
      exists x. by rewrite mergeInBatches_short by (simpl; lia).
    + rewrite mergeInBatches_long by lia. unfold round.
      destruct (roundFrom_length B (length files) files) as [H3 H4];
        [done|done|done|].
      apply IH; [|lia].
      intros E. rewrite E in H3. simpl in H3. lia.
Qed.

(** [main] runs the program only with a positive bound. *)
Lemma main_bound_positive (TrimSpace : string -> string) arg fuel lines r :
  main TrimSpace arg fuel lines = Some r ->
  exists B, 0 < B /\ r = wordcount TrimSpace B fuel lines.
Proof.
  unfold main. destruct (Atoi arg) as [n [e|]]; [done|].
  case_decide; [done|]. intros [= <-]. exists (Z.to_nat n). split; [lia|done].
Qed.

(** With a fan-in of 1 and more than one run the scheduler never returns. *)
Lemma mergeInBatches_one fuel files :
  1 < length files -> mergeInBatches 1 fuel files = OutOfFuel.
Proof.
  revert files. induction fuel as [|f IH]; intros files Hl.
  - simpl. by rewrite decide_True.
  - rewrite mergeInBatches_long by done. apply IH.
    unfold round. by rewrite roundFrom_length_1.
Qed.

End SchedulerFacts.

(** ** Counting tokens *)

Module CountFacts.

Import Record Table TableFacts InputFacts.

(** The number of times [w] occurs in a token stream. *)
Definition occurrences (w : string) (p : list string) : nat :=
  length (filter (fun x => x = w) p).



Lemma sumFor_ones w p : sumFor w (ones p) = Z.of_nat (occurrences w p).
Proof.
  unfold occurrences. induction p as [|x p IH]; [done|].
  rewrite filter_cons. simpl. rewrite IH.
  repeat case_decide; simpl length; try done; lia.
Qed.



Lemma occurrences_pos w p : w ∈ p -> (0 < occurrences w p)%nat.
Proof.
  intros Hin. unfold occurrences.
  assert (w ∈ filter (fun x => x = w) p) as H by by apply list_elem_of_filter.
  destruct (filter _ p); [by apply elem_of_nil in H|simpl; lia].
Qed.






(** The table of a token stream. *)
Lemma lookup_ones p w :
  accumulate ∅ (ones p) !! w =
    if decide (w ∈ p) then Some (GoInt.wrap (Z.of_nat (occurrences w p)))
    else None.
Proof.
  rewrite lookup_accumulate, ones_keys, sumFor_ones.
  unfold get. rewrite lookup_empty. simpl. by case_decide.
Qed.



End CountFacts.

(** * Part III: the properties of the specification *)

Import Record Table TableFacts MergeFacts InputFacts CountFacts.
Import Scheduler SchedulerFacts.

(** A line made of a token, a tab and a count field. *)
Definition tabbed (w c : string) : string := w +:+ String Str.tab c.

(** ** Record format *)



(** A count field that is a number too large for [int] is not zeroed:
    [Atoi] returns the largest [int] with a range error, which [parseLine]
    drops. *)
Example parseLine_out_of_range :
  isNumeric "99999999999999999999" = true /\
  parseLine (tabbed "w" "99999999999999999999") = ("w", GoInt.maxInt).
Proof. split; reflexivity. Qed.

(** C9, as the code has it.  A line written as token, tab, decimal count
    parses back to the same token and count when the token holds no tab
    and the count is a non-negative [int]. *)
Theorem record_roundtrip w c :
  containsTab w = false -> 0 <= c <= GoInt.maxInt ->
  parseLine (formatRecord (w, c)) = (w, c).
Proof.
  intros Hw Hc. apply RecordFacts.parseLine_formatRecord; [done|].
  unfold GoInt.inRange, GoInt.minInt, GoInt.maxInt in *. lia.
Qed.

Lemma record_roundtrip_witness :
  (containsTab "word" = false /\ 0 <= 42 <= GoInt.maxInt) /\
  parseLine (formatRecord ("word", 42)) = ("word", 42).
Proof.
  assert (0 <= 42 <= GoInt.maxInt) as Hc by (unfold GoInt.maxInt; lia).
  split; [split; [reflexivity|exact Hc]|].
  apply record_roundtrip; [reflexivity|exact Hc].
Defined.

(** C9 as stated fails: a token that holds a tab is cut at its first tab
    and the rest of the line is read as the count. *)
Lemma record_roundtrip_tab_counterexample :
  parseLine (formatRecord (tabbed "a" "b", 1)) = ("a", 0) /\
  parseLine (formatRecord (tabbed "a" "b", 1)) <> (tabbed "a" "b", 1).
Proof. split; [reflexivity|]. vm_compute. discriminate. Qed.

(** ** Scheduling *)

(** C8. With exactly one run the scheduler merges nothing, whatever the
    fuel, and the final output is that run unchanged. *)
Theorem single_run_unchanged (TrimSpace : string -> string) B fuel lines f :
  Input.processInputFile TrimSpace B lines = [f] ->
  mergeInBatches B 0 [f] = Returns f /\
  mergeInBatches B fuel [f] = Returns f /\
  wordcount TrimSpace B fuel lines = Returns f.
Proof.
  intros H. unfold wordcount. rewrite H.
  rewrite !mergeInBatches_short by (simpl; lia). done.
Qed.

Lemma single_run_unchanged_witness :
  Input.processInputFile Input.TrimSpaceASCII 1000
      ["token"; "token"; " token "] = [[tabbed "token" "3"]] /\
  wordcount Input.TrimSpaceASCII 1000 0 ["token"; "token"; " token "]
    = Returns [tabbed "token" "3"].
Proof.
  assert (Input.processInputFile Input.TrimSpaceASCII 1000
            ["token"; "token"; " token "] = [[tabbed "token" "3"]]) as H
    by (vm_compute; reflexivity).
  split; [exact H|].
  apply (single_run_unchanged Input.TrimSpaceASCII 1000 0
           ["token"; "token"; " token "] [tabbed "token" "3"] H).
Defined.

(** C3, where the code fails it.  With [MAX_WORDS_IN_MEMORY = 1] every batch
    holds one run, a round gives back as many runs as it got, and the loop
    of [mergeInBatches] never ends on two runs or more: whatever the fuel,
    the model is still running.  Two distinct tokens are enough. *)
Theorem scheduler_bound_one_never_returns :
  (forall files, length (round 1 files) = length files) /\
  (forall fuel f g files, mergeInBatches 1 fuel (f :: g :: files) = OutOfFuel) /\
  (forall fuel, wordcount Input.TrimSpaceASCII 1 fuel ["a"; "b"] = OutOfFuel).
Proof.
  split; [|split].
  - intros files. unfold round. by apply roundFrom_length_1.
  - intros fuel f g files. apply mergeInBatches_one. simpl. lia.
  - intros fuel. unfold wordcount.
    replace (Input.processInputFile Input.TrimSpaceASCII 1 ["a"; "b"])
      with [[tabbed "a" "1"]; [tabbed "b" "1"]] by (vm_compute; reflexivity).
    apply mergeInBatches_one. simpl. lia.
Qed.

(** C4, where the code fails it.  An input without tokens gives no run, and
    [mergeInBatches] then indexes the empty list of runs: [files[0]]
    panics, for every bound and every fuel. *)
Theorem empty_input_panics (TrimSpace : string -> string) B fuel lines :
  Input.tokens TrimSpace lines = [] ->
  Input.processInputFile TrimSpace B lines = [] /\
  mergeInBatches B fuel [] = Panics /\
  wordcount TrimSpace B fuel lines = Panics.
Proof.
  intros H. unfold wordcount.
  rewrite (processInputFile_no_token TrimSpace B lines H).
  rewrite !mergeInBatches_short by (simpl; lia). done.
Qed.

Lemma empty_input_panics_witness :
  Input.tokens Input.TrimSpaceASCII [""; "   "] = [] /\
  Input.processInputFile Input.TrimSpaceASCII 2 [""; "   "] = [] /\
  mergeInBatches 2 5 [] = Panics /\
  wordcount Input.TrimSpaceASCII 2 5 [""; "   "] = Panics.
Proof.
  split; [reflexivity|].
  apply (empty_input_panics Input.TrimSpaceASCII 2 5 [""; "   "]).
  reflexivity.
Defined.

(** ** Memory bound *)

(** C5. For a positive bound [B], neither [wordCount] in [processInputFile]
    nor [wordBuffer] in [mergeBatch] ever holds more than [B] keys. *)
Theorem bound_respected B :
  (0 < B)%nat ->
  (forall (TrimSpace : string -> string) lines,
     Forall (fun t : Table.t => (size t <= B)%nat)
            (Input.tables TrimSpace B lines)) /\
  (forall files,
     Forall (fun t : Table.t => (size t <= B)%nat) (Merge.buffers B files)).
Proof.
  intros HB. split.
  - intros TrimSpace lines. by apply tables_bound.
  - intros files. by apply buffers_bound.
Qed.

Lemma bound_respected_witness :
  (0 < 2)%nat /\
  Forall (fun t : Table.t => (size t <= 2)%nat)
         (Input.tables Input.TrimSpaceASCII 2 ["a"; "b"; "a"; "c"; "b"; "a"]) /\
  Forall (fun t : Table.t => (size t <= 2)%nat)
         (Merge.buffers 2 [[tabbed "a" "1"; tabbed "b" "1"];
                           [tabbed "a" "1"; tabbed "c" "1"]]).
Proof.
  split; [lia|].
  destruct (bound_respected 2 ltac:(lia)) as [H1 H2].
  split; [apply H1|apply H2].
Defined.

(** ** The whole computation *)

Section Pipeline.

Variable TrimSpace : string -> string.

Abbreviation tokens := (Input.tokens TrimSpace).

(** The frequency table of the input computed in one in-memory pass: every
    token is counted into one table. *)
Definition singlePass (lines : list string) : Table.t :=
  foldl (fun m w => Table.incr m w 1) ∅ (tokens lines).

Lemma singlePass_ones lines : singlePass lines = accumulate ∅ (ones (tokens lines)).
Proof.
  unfold singlePass, accumulate, ones. generalize (∅ : Table.t).
  induction (tokens lines) as [|w p IH]; intros m; [done|].
  rewrite fmap_cons. cbn [foldl]. apply IH.
Qed.

Lemma ones_noTab p :
  Forall noTab p -> Forall (fun r : record => containsTab r.1 = false) (ones p).
Proof. intros H. unfold ones. rewrite Forall_fmap. by apply H. Qed.

Lemma singlePass_wf lines : Forall noTab (tokens lines) -> wfTable (singlePass lines).
Proof.
  intros H. rewrite singlePass_ones.
  apply wfTable_accumulate; [apply wfTable_empty|by apply ones_noTab].
Qed.

(** With a bound of at least 2, tokens without tabs and at least one token,
    the program returns the sorted flush of the single-pass table, after
    fewer rounds than the input phase wrote runs. *)
Lemma wordcount_returns B fuel lines :
  (2 <= B)%nat -> Forall noTab (tokens lines) -> tokens lines <> [] ->
  (length (Input.processInputFile TrimSpace B lines) <= S fuel)%nat ->
  wordcount TrimSpace B fuel lines = Returns (flushLines (singlePass lines)).
Proof.
  intros HB Ht Hne Hf. unfold wordcount.
  destruct (processInputFile_spec TrimSpace B lines Ht) as [Hc Hs].
  rewrite mergeInBatches_returns; [|done|done| |done].
  - rewrite singlePass_ones. do 2 f_equal. apply Hs.
  - by apply processInputFile_nonempty.
Qed.


(** The single pass is what the input phase does when the bound is never
    reached: all the tokens end in one table, flushed as the only run. *)
Lemma loop_unbounded B lines st :
  (size (Input.wordCount st) + length (tokens lines) < B)%nat ->
  foldl (Input.step TrimSpace B) st lines =
    Input.mkState
      (foldl (fun m w => Table.incr m w 1) (Input.wordCount st) (tokens lines))
      (Input.tempFiles st).
Proof.
  revert st. induction lines as [|line rest IH]; intros st Hsz.
  { by destruct st. }
  rewrite tokens_cons in Hsz |- *. cbn [foldl]. unfold Input.step at 2.
  case_decide as Hw; [by apply IH|].
  cbn [foldl length] in *.
  pose proof (size_incr_le (Input.wordCount st) (TrimSpace line) 1) as Hle.
  unfold Input.spill, Input.countWord. cbn [Input.wordCount Input.tempFiles].
  rewrite decide_False by lia.
  rewrite IH; [done|]. cbn [Input.wordCount]. lia.
Qed.

Lemma processInputFile_unbounded B lines :
  (length (tokens lines) < B)%nat -> tokens lines <> [] ->
  Input.processInputFile TrimSpace B lines = [flushToTempFile (singlePass lines)].
Proof.
  intros Hlen Hne. unfold Input.processInputFile, Input.loop.
  rewrite loop_unbounded by (simpl; rewrite map_size_empty; lia).
  cbn [Input.wordCount Input.tempFiles]. fold (singlePass lines).
  rewrite decide_True; [done|].
  destruct (decide (size (singlePass lines) = 0%nat)) as [E|]; [|lia].
  apply map_size_empty_iff in E. rewrite singlePass_ones in E.
  destruct (tokens lines) as [|w p]; [done|].
  pose proof (f_equal (fun m : Table.t => m !! w) E) as Ew. cbv beta in Ew.
  rewrite lookup_ones, lookup_empty in Ew.
  rewrite decide_True in Ew by (by left). done.
Qed.

End Pipeline.

(** ** The scenarios of the specification *)

(** Tokens [a b a c b a] with bound 2: three runs, two rounds. *)
Example scenario_three_runs :
  Input.processInputFile Input.TrimSpaceASCII 2 ["a"; "b"; "a"; "c"; "b"; "a"]
    = [[tabbed "a" "1"; tabbed "b" "1"]; [tabbed "a" "1"; tabbed "c" "1"];
       [tabbed "a" "1"; tabbed "b" "1"]] /\
  wordcount Input.TrimSpaceASCII 2 2 ["a"; "b"; "a"; "c"; "b"; "a"]
    = Returns [tabbed "a" "3"; tabbed "b" "2"; tabbed "c" "1"].
Proof. split; vm_compute; reflexivity. Qed.

(** One token a hundred times with bound 1000: one run, no merge. *)
Example scenario_one_token :
  wordcount Input.TrimSpaceASCII 1000 0 (replicate 100 "token")
    = Returns [tabbed "token" "100"].
Proof. vm_compute. reflexivity. Qed.





(** ** Sort order *)

(** C2, as the code has it.  A leaf run is written from records whose
    tokens strictly increase.  A merged run has strictly increasing tokens,
    however often the buffer is flushed, when each run merged reads back
    with tokens that never decrease.  When no token of the input holds a tab
    (bound at least 2, at least one token) the final output has strictly
    increasing tokens. *)
Theorem runs_strictly_sorted :
  (forall wordCount : Table.t,
     flushToTempFile wordCount = formatRecord <$> flushRecords wordCount /\
     StronglySorted Str.lt (flushRecords wordCount).*1) /\
  (forall B files, Forall sortedRun files ->
     StronglySorted Str.lt (tokensOf (Merge.mergeBatch B files))) /\
  (forall (TrimSpace : string -> string) B lines,
     (2 <= B)%nat ->
     Forall noTab (Input.tokens TrimSpace lines) ->
     Input.tokens TrimSpace lines <> [] ->
     exists n out,
       (forall fuel, (n <= fuel)%nat ->
          wordcount TrimSpace B fuel lines = Returns out) /\
       StronglySorted Str.lt (tokensOf out)).
Proof.
  split; [|split].
  - intros wc. split; [done|apply flushRecords_sorted].
  - intros B files Hf. by apply canonical_strict, mergeBatch_canonical.
  - intros TrimSpace B lines HB Ht Hne.
    exists (length (Input.processInputFile TrimSpace B lines)),
           (flushLines (singlePass TrimSpace lines)).
    split.
    + intros fuel Hf. apply wordcount_returns; [done|done|done|lia].
    + apply canonical_strict. exists (singlePass TrimSpace lines).
      split; [by apply singlePass_wf|done].
Qed.

Lemma runs_strictly_sorted_witness :
  (Forall sortedRun [[tabbed "a" "1"; tabbed "c" "1"];
                     [tabbed "a" "2"; tabbed "b" "1"]] /\
   Forall noTab (Input.tokens Input.TrimSpaceASCII ["b"; "a"; "c"; "a"])) /\
  StronglySorted Str.lt
    (tokensOf (Merge.mergeBatch 1 [[tabbed "a" "1"; tabbed "c" "1"];
                                   [tabbed "a" "2"; tabbed "b" "1"]])) /\
  exists n out,
    (forall fuel, (n <= fuel)%nat ->
       wordcount Input.TrimSpaceASCII 2 fuel ["b"; "a"; "c"; "a"] = Returns out) /\
    StronglySorted Str.lt (tokensOf out).
Proof.
  destruct runs_strictly_sorted as (_ & H2 & H3).
  split; [split; repeat constructor|]. split.
  - apply H2. repeat constructor.
  - apply (H3 Input.TrimSpaceASCII 2%nat ["b"; "a"; "c"; "a"]).
    + lia.
    + repeat constructor.
    + discriminate.
Defined.

(** The input of the counterexample to C2: the second token holds a tab
    after a byte smaller than the tab. *)
Definition backspaced (a b : string) : string := a +:+ String "008"%char b.

Definition unsortedInput : list string :=
  [backspaced "a" "z"; tabbed "a" "b"; backspaced "a" ""; "q"].

(** C2 as stated fails: the leaf run [a\bz, a\tb] is sorted as written, but
    reads back as [a\bz, a], and the merged output is not ascending. *)
Lemma sort_order_tab_counterexample :
  wordcount Input.TrimSpaceASCII 2 1 unsortedInput
    = Returns [tabbed (backspaced "a" "") "1"; tabbed (backspaced "a" "z") "1";
               tabbed "a" "0"; tabbed "q" "1"] /\
  ~ StronglySorted Str.lt
      (tokensOf [tabbed (backspaced "a" "") "1"; tabbed (backspaced "a" "z") "1";
                 tabbed "a" "0"; tabbed "q" "1"]).
Proof.
  split; [vm_compute; reflexivity|].
  intros H. apply StronglySorted_inv in H as [H _].
  apply StronglySorted_inv in H as [_ H].
  apply Forall_cons in H as [H _]. vm_compute in H. discriminate.
Qed.

(** ** Malformed records *)

(** C10, as the code has it.  When a run read by [mergeBatch] holds a line
    without a tab, the merged run holds a line with the empty token; its
    count is 0 when every record read with the empty token counts 0. *)
Theorem malformed_line_written B files r line :
  r ∈ files -> line ∈ r -> containsTab line = false ->
  exists c,
    formatRecord (EmptyString, c) ∈ Merge.mergeBatch B files /\
    ((forall rec, rec ∈ recordsOf files -> rec.1 = EmptyString -> rec.2 = 0) ->
     c = 0).
Proof.
  intros Hr Hl Ht.
  destruct (mergeBatch_recorded EmptyString
           (fun c => (forall rec, rec ∈ recordsOf files ->
                        rec.1 = EmptyString -> rec.2 = 0) -> c = 0) B files)
    as (c & Hc & Hin); [| |by exists c].
  - apply Forall_forall. intros x Hx Hx1 v Hv Hall.
    rewrite (Hall x Hx Hx1).
    destruct Hv as [->|Hv]; [done|]. by rewrite (Hv Hall).
  - unfold recordsOf. rewrite <- list_fmap_compose.
    apply list_elem_of_fmap. exists line. split.
    + simpl. by rewrite RecordFacts.parseLine_noTab.
    + apply elem_of_concat. by exists r.
Qed.

Lemma malformed_line_written_witness :
  containsTab "garbage" = false /\
  exists c,
    formatRecord (EmptyString, c)
      ∈ Merge.mergeBatch 2 [["garbage"; tabbed "b" "5"]] /\
    ((forall rec, rec ∈ recordsOf [["garbage"; tabbed "b" "5"]] ->
        rec.1 = EmptyString -> rec.2 = 0) -> c = 0).
Proof.
  split; [reflexivity|].
  apply (malformed_line_written 2 [["garbage"; tabbed "b" "5"]]
           ["garbage"; tabbed "b" "5"] "garbage").
  - apply list_elem_of_In. simpl. auto.
  - apply list_elem_of_In. simpl. auto.
  - reflexivity.
Defined.

(** C10 as stated fails: next to a line that parses to the empty token with
    count 5, the line without a tab adds 0 to it and the merged run has no
    record with the empty token and count 0. *)
Lemma malformed_line_counterexample :
  containsTab "garbage" = false /\
  Merge.mergeBatch 2 [[tabbed "" "5"; "garbage"]] = [tabbed "" "5"] /\
  (EmptyString, 0) ∉ parseLine <$> [tabbed "" "5"].
Proof.
  split; [reflexivity|]. split; [vm_compute; reflexivity|].
  intros H. apply list_elem_of_In in H. vm_compute in H.
  destruct H as [H|H]; [discriminate H|done].
Qed.

(** ** Merge associativity *)

(** A way to merge runs: a run as it is, or the merge, with some bound, of
    the results of other merges. *)
#[local] Unset Elimination Schemes.
#[local] Set Elimination Schemes.




Lemma recordsOf_singleton r : recordsOf [r] = parseLine <$> r.
Proof. unfold recordsOf. simpl. by rewrite app_nil_r. Qed.







(** * Part IV: the rest of the code *)

(** ** The methods of [fileEntryHeap] *)

(** X1. [Pop] undoes [Push]: the entry appended last is the one removed,
    and the slice is the one before the [Push].  [Pop] indexes out of
    range exactly on the empty slice. *)
Theorem fileEntryHeap_Push_Pop (h : fileEntryHeap.t) (x : fileEntry) :
  fileEntryHeap.Pop (fileEntryHeap.Push h x) = Some (x, h) /\
  (fileEntryHeap.Pop h = None <-> h = []).
Proof.
  split.
  - unfold fileEntryHeap.Pop, fileEntryHeap.Push.
    rewrite length_app. cbn [length].
    replace (length h + 1 - 1)%nat with (length h) by lia.
    rewrite list_lookup_middle by reflexivity.
    rewrite take_app_length. reflexivity.
  - unfold fileEntryHeap.Pop. split.
    + intros H. destruct h as [|a h]; [reflexivity|].
      destruct (lookup_lt_is_Some_2 (a :: h) (length (a :: h) - 1)%nat)
        as [y Hy]; [cbn [length]; lia|].
      rewrite Hy in H. discriminate.
    + intros ->. reflexivity.
Qed.

(** X2. [Swap] on two indices of the slice exchanges the two entries and
    leaves the others where they are; the slice keeps its length and its
    entries, and swapping again restores it. *)
Theorem fileEntryHeap_Swap (h : fileEntryHeap.t) (i j : nat) (a b : fileEntry) :
  h !! i = Some a -> h !! j = Some b ->
  fileEntryHeap.Swap h i j !! i = Some b /\
  fileEntryHeap.Swap h i j !! j = Some a /\
  (forall k, k <> i -> k <> j -> fileEntryHeap.Swap h i j !! k = h !! k) /\
  fileEntryHeap.Len (fileEntryHeap.Swap h i j) = fileEntryHeap.Len h /\
  fileEntryHeap.Swap h i j ≡ₚ h /\
  fileEntryHeap.Swap (fileEntryHeap.Swap h i j) i j = h.
Proof.
  intros Hi Hj.
  pose proof (HeapFacts.lookup_Swap h i j a b) as L.
  assert (Si : fileEntryHeap.Swap h i j !! i = Some b).
  { rewrite (L i Hi Hj). rewrite decide_True by reflexivity. reflexivity. }
  assert (Sj : fileEntryHeap.Swap h i j !! j = Some a).
  { rewrite (L j Hi Hj). destruct (decide (j = i)) as [->|_].
    - congruence.
    - rewrite decide_True by reflexivity. reflexivity. }
  repeat split.
  - exact Si.
  - exact Sj.
  - intros k Hki Hkj. rewrite (L k Hi Hj).
    rewrite decide_False by exact Hki. rewrite decide_False by exact Hkj.
    reflexivity.
  - apply HeapFacts.length_Swap.
  - apply HeapFacts.Swap_Permutation.
  - apply list_eq. intros k.
    rewrite (HeapFacts.lookup_Swap _ i j b a k Si Sj), (L k Hi Hj).
    destruct (decide (k = i)) as [->|Hki]; [congruence|].
    destruct (decide (k = j)) as [->|Hkj]; [congruence|].
    reflexivity.
Qed.

Lemma fileEntryHeap_Swap_witness :
  fileEntryHeap.Swap [mkEntry "b" 1 0; mkEntry "a" 2 1; mkEntry "c" 3 2] 0 2
    = [mkEntry "c" 3 2; mkEntry "a" 2 1; mkEntry "b" 1 0] /\
  fileEntryHeap.Swap
    (fileEntryHeap.Swap [mkEntry "b" 1 0; mkEntry "a" 2 1; mkEntry "c" 3 2] 0 2)
    0 2 = [mkEntry "b" 1 0; mkEntry "a" 2 1; mkEntry "c" 3 2].
Proof.
  split; [reflexivity|].
  apply (fileEntryHeap_Swap
           [mkEntry "b" 1 0; mkEntry "a" 2 1; mkEntry "c" 3 2] 0 2
           (mkEntry "b" 1 0) (mkEntry "c" 3 2)); reflexivity.
Defined.

(** X3. [Less] compares the words only, as a strict order: it never holds
    both ways, and it fails both ways exactly when the two entries carry
    the same word, whatever their counts and files. *)
Theorem fileEntryHeap_Less (h : fileEntryHeap.t) (i j : nat) (a b : fileEntry) :
  h !! i = Some a -> h !! j = Some b ->
  (fileEntryHeap.Less h i j = true <-> Str.lt (word a) (word b)) /\
  (fileEntryHeap.Less h i j = true -> fileEntryHeap.Less h j i = false) /\
  (fileEntryHeap.Less h i j = false /\ fileEntryHeap.Less h j i = false
     <-> word a = word b).
Proof.
  intros Hi Hj. unfold fileEntryHeap.Less. rewrite Hi, Hj.
  split; [reflexivity|]. split.
  - intros H. apply StrFacts.ltb_false.
    apply StrFacts.ltb_spec in H. tauto.
  - split.
    + intros [H1 H2].
      apply StrFacts.ltb_false in H1. apply StrFacts.ltb_false in H2.
      apply (anti_symm String.le); assumption.
    + intros ->. split; apply StrFacts.ltb_false; reflexivity.
Qed.

Lemma fileEntryHeap_Less_witness :
  fileEntryHeap.Less [mkEntry "a" 1 0; mkEntry "a" 7 3] 0 1 = false /\
  fileEntryHeap.Less [mkEntry "a" 1 0; mkEntry "a" 7 3] 1 0 = false.
Proof.
  apply (fileEntryHeap_Less [mkEntry "a" 1 0; mkEntry "a" 7 3] 0 1
           (mkEntry "a" 1 0) (mkEntry "a" 7 3)); reflexivity.
Defined.

(** ** [container/heap] over [fileEntryHeap] *)

(** X4. [heap.Push] on a heap in heap order gives a heap in heap order
    that holds the new entry and the old ones, each once. *)
Theorem heap_Push_ordered (h : fileEntryHeap.t) (x : fileEntry) :
  HeapFacts.ordered h ->
  HeapFacts.ordered (heap.Push h x) /\
  heap.Push h x ≡ₚ x :: h /\
  fileEntryHeap.Len (heap.Push h x) = S (fileEntryHeap.Len h).
Proof.
  intros Ho. split; [|split].
  - apply HeapFacts.Push_ordered, Ho.
  - apply HeapFacts.Push_Permutation.
  - apply HeapFacts.Push_length.
Qed.

Lemma heap_Push_ordered_witness :
  HeapFacts.ordered (heap.Push [mkEntry "b" 1 0; mkEntry "c" 1 1] (mkEntry "a" 1 2)) /\
  heap.Push [mkEntry "b" 1 0; mkEntry "c" 1 1] (mkEntry "a" 1 2)
    = [mkEntry "a" 1 2; mkEntry "c" 1 1; mkEntry "b" 1 0].
Proof.
  split; [|reflexivity].
  apply (heap_Push_ordered [mkEntry "b" 1 0; mkEntry "c" 1 1] (mkEntry "a" 1 2)).
  apply (HeapFacts.Push_ordered [mkEntry "b" 1 0] (mkEntry "c" 1 1)).
  apply (HeapFacts.Push_ordered [] (mkEntry "b" 1 0)).
  apply HeapFacts.ordered_nil.
Defined.

(** X5. [heap.Pop] on a heap in heap order that is not empty returns an
    entry whose word is a least one, and leaves the other entries, each
    once, in heap order. *)
Theorem heap_Pop_least (h : fileEntryHeap.t) :
  HeapFacts.ordered h -> h <> [] ->
  exists e h',
    heap.Pop h = Some (e, h') /\
    h ≡ₚ e :: h' /\
    HeapFacts.ordered h' /\
    forall x, x ∈ h -> String.le (word e) (word x).
Proof.
  intros Ho Hne.
  destruct (HeapFacts.Pop_spec h Hne) as (e & h' & HP & _ & Hperm & Hord).
  exists e, h'. repeat split; [exact HP|exact Hperm|exact (Hord Ho)|].
  intros x Hx. exact (HeapFacts.Pop_min h e h' x Ho HP Hx).
Qed.

Lemma heap_Pop_least_witness :
  exists e h',
    heap.Pop [mkEntry "a" 1 2; mkEntry "c" 1 1; mkEntry "b" 1 0] = Some (e, h') /\
    [mkEntry "a" 1 2; mkEntry "c" 1 1; mkEntry "b" 1 0] ≡ₚ e :: h' /\
    HeapFacts.ordered h' /\
    forall x, x ∈ [mkEntry "a" 1 2; mkEntry "c" 1 1; mkEntry "b" 1 0] ->
              String.le (word e) (word x).
Proof.
  apply (heap_Pop_least [mkEntry "a" 1 2; mkEntry "c" 1 1; mkEntry "b" 1 0]).
  - apply (HeapFacts.Push_ordered [mkEntry "b" 1 0; mkEntry "c" 1 1] (mkEntry "a" 1 2)).
    apply (HeapFacts.Push_ordered [mkEntry "b" 1 0] (mkEntry "c" 1 1)).
    apply (HeapFacts.Push_ordered [] (mkEntry "b" 1 0)).
    apply HeapFacts.ordered_nil.
  - discriminate.
Defined.

(** [for h.Len() > 0 { heap.Pop(h) }]: the entries in the order popped, at
    most [fuel] of them. *)
Fixpoint popAll (fuel : nat) (h : fileEntryHeap.t) : list fileEntry :=
  match fuel with
  | O => []
  | S f =>
      match heap.Pop h with
      | None => []
      | Some (e, h') => e :: popAll f h'
      end
  end.

(** [heap.Init(h)] on the empty heap, then [heap.Push(h, e)] for each entry
    in turn. *)
Definition pushAll (es : list fileEntry) : fileEntryHeap.t :=
  foldl heap.Push (heap.Init []) es.

Lemma pushAll_from (h : fileEntryHeap.t) es :
  HeapFacts.ordered h ->
  HeapFacts.ordered (foldl heap.Push h es) /\ foldl heap.Push h es ≡ₚ h ++ es.
Proof.
  revert h. induction es as [|e es IH]; intros h Ho; cbn [foldl].
  - split; [exact Ho|]. rewrite app_nil_r. reflexivity.
  - destruct (IH (heap.Push h e) (HeapFacts.Push_ordered h e Ho)) as [H1 H2].
    split; [exact H1|]. rewrite H2, HeapFacts.Push_Permutation.
    apply Permutation_middle.
Qed.

Lemma popAll_spec fuel (h : fileEntryHeap.t) :
  HeapFacts.ordered h -> (length h <= fuel)%nat ->
  popAll fuel h ≡ₚ h /\ StronglySorted HeapFacts.ele (popAll fuel h).
Proof.
  revert h. induction fuel as [|f IH]; intros h Ho Hlen.
  - destruct h; [|simpl in Hlen; lia]. split; [done|constructor].
  - cbn [popAll]. destruct h as [|a h0].
    { rewrite HeapFacts.Pop_nil. split; [done|constructor]. }
    destruct (HeapFacts.Pop_spec (a :: h0))
      as (e & h' & HP & _ & Hperm & Hord); [done|].
    rewrite HP.
    pose proof (Permutation_length Hperm) as HL. simpl in HL, Hlen.
    destruct (IH h' (Hord Ho)) as [Hp Hs]; [lia|].
    split; [by rewrite Hp, Hperm|].
    constructor; [done|]. apply Forall_forall. intros x Hx.
    apply (HeapFacts.Pop_min (a :: h0) e h' x Ho HP).
    rewrite Hperm. right. by rewrite <- Hp.
Qed.

(** X6. Entries pushed one by one onto the empty heap and then popped until
    the heap is empty come out in ascending order of their words, each
    entry once: [Less], [Swap], [Push] and [Pop] make [container/heap] a
    priority queue on the words. *)
Theorem heap_sorts (es : list fileEntry) :
  popAll (length es) (pushAll es) ≡ₚ es /\
  StronglySorted (fun a b => String.le (word a) (word b))
                 (popAll (length es) (pushAll es)).
Proof.
  unfold pushAll. rewrite HeapFacts.Init_nil.
  destruct (pushAll_from [] es HeapFacts.ordered_nil) as [Ho Hp].
  rewrite app_nil_l in Hp.
  destruct (popAll_spec (length es) (foldl heap.Push [] es) Ho) as [H1 H2].
  - by rewrite Hp.
  - split; [by rewrite H1|exact H2].
Qed.

(** ** [mergeBatch] *)

(** The heap holds at most one entry of each file, and only entries of the
    files of the batch. *)
Definition onePerFile (n : nat) (hp : fileEntryHeap.t) : Prop :=
  NoDup (fileIdx <$> hp) /\ Forall (fun e => (fileIdx e < n)%nat) hp.

Lemma onePerFile_length n hp : onePerFile n hp -> (length hp <= n)%nat.
Proof.
  intros [Hnd Hlt].
  rewrite <- (length_fmap fileIdx hp), <- (length_seq n 0).
  apply submseteq_length, NoDup_submseteq; [done|].
  intros i Hi. apply list_elem_of_fmap in Hi as (e & -> & He).
  rewrite Forall_forall in Hlt. apply elem_of_seq. specialize (Hlt e He). lia.
Qed.

Lemma scanPush_onePerFile i (rs : list run) hp rs' hp' :
  Merge.scanPush i rs hp = (rs', hp') ->
  i ∉ fileIdx <$> hp -> onePerFile (length rs) hp ->
  onePerFile (length rs') hp'.
Proof.
  intros E Hi [Hnd Hlt].
  rewrite (scanPush_length _ _ _ _ _ E).
  destruct (scanPush_cases i rs hp) as [(line & rest & Hl & E')|[_ E']];
    rewrite E' in E; injection E as <- <-; [|done].
  pose proof (HeapFacts.Push_Permutation hp (entryOf i line)) as Hp.
  split.
  - rewrite Hp, fmap_cons. by constructor.
  - rewrite Hp. constructor; [|done]. simpl. by eapply lookup_lt_Some.
Qed.

Lemma openAll_onePerFile (files : list run) :
  length (Merge.openAll files).1 = length files /\
  onePerFile (length files) (Merge.openAll files).2.
Proof.
  unfold Merge.openAll.
  set (P := fun (k : nat) (s : list run * fileEntryHeap.t) =>
    length s.1 = length files /\ NoDup (fileIdx <$> s.2) /\
    Forall (fun e => (fileIdx e < k)%nat) s.2).
  assert (P (length files)
            (foldl (fun '(rs, hp) i => Merge.scanPush i rs hp)
                   (files, heap.Init []) (seq 0 (length files)))) as HP.
  { apply (foldl_seq_ind _ P).
    - rewrite HeapFacts.Init_nil. split; [done|]. split; constructor.
    - intros k [rs hp] Hk (Hlen & Hnd & Hlt). simpl in *.
      destruct (Merge.scanPush k rs hp) as [rs' hp'] eqn:E. unfold P. simpl.
      split; [by rewrite (scanPush_length _ _ _ _ _ E)|].
      destruct (scanPush_cases k rs hp) as [(line & rest & Hl & E')|[_ E']];
        rewrite E' in E; injection E as <- <-.
      + pose proof (HeapFacts.Push_Permutation hp (entryOf k line)) as Hp.
        split.
        * rewrite Hp, fmap_cons. constructor; [|done]. simpl.
          intros Hin. apply list_elem_of_fmap in Hin as (e & He & Hin).
          rewrite Forall_forall in Hlt. specialize (Hlt e Hin). lia.
        * rewrite Hp. constructor; [simpl; lia|].
          eapply Forall_impl; [exact Hlt|]. simpl. intros; lia.
      + split; [done|]. eapply Forall_impl; [exact Hlt|]. simpl. intros; lia. }
  destruct HP as (Hlen & Hnd & Hlt). done.
Qed.

Lemma step_onePerFile B (st : Merge.state) :
  onePerFile (length (Merge.readers st)) (Merge.h st) ->
  onePerFile (length (Merge.readers (Merge.step B st))) (Merge.h (Merge.step B st)).
Proof.
  intros Hinv. unfold Merge.step.
  destruct (heap.Pop (Merge.h st)) as [[e hp]|] eqn:HP; [|done].
  destruct (Merge.makeRoom B (word e) (Merge.wordBuffer st) (Merge.writer st))
    as [buf out].
  destruct (Merge.scanPush (fileIdx e) (Merge.readers st) hp) as [rs hp'] eqn:Hs.
  cbn [Merge.readers Merge.h].
  apply Pop_Some in HP as [Hperm _].
  destruct Hinv as [Hnd Hlt]. rewrite Hperm in Hnd, Hlt.
  rewrite fmap_cons in Hnd. apply NoDup_cons in Hnd as [Hni Hnd].
  apply Forall_cons in Hlt as [_ Hlt].
  by apply (scanPush_onePerFile _ _ _ _ _ Hs).
Qed.

Lemma loop_onePerFile B fuel (st : Merge.state) :
  onePerFile (length (Merge.readers st)) (Merge.h st) ->
  length (Merge.readers (Merge.loop B fuel st)) = length (Merge.readers st) /\
  onePerFile (length (Merge.readers st)) (Merge.h (Merge.loop B fuel st)).
Proof.
  revert st. induction fuel as [|f IH]; intros st Hinv; [done|].
  cbn [Merge.loop]. case_decide as Hlen; [|done].
  pose proof (step_onePerFile B st Hinv) as Hstep.
  assert (length (Merge.readers (Merge.step B st)) = length (Merge.readers st))
    as Hl.
  { unfold Merge.step.
    destruct (heap.Pop (Merge.h st)) as [[e hp]|]; [|done].
    destruct (Merge.makeRoom B (word e) (Merge.wordBuffer st) (Merge.writer st)).
    destruct (Merge.scanPush (fileIdx e) (Merge.readers st) hp) eqn:Hs.
    cbn [Merge.readers]. by apply scanPush_length in Hs. }
  destruct (IH _ Hstep) as [H1 H2]. rewrite Hl in H1, H2. done.
Qed.

(** The variables of [mergeBatch] when its main loop starts. *)
Definition mergeStart (tempFiles : list run) : Merge.state :=
  Merge.mkState (Merge.openAll tempFiles).1 (Merge.openAll tempFiles).2 ∅ [].

(** X7. Throughout the loop of [mergeBatch], after any number of
    iterations, the heap holds at most one entry of each file of the batch;
    it never holds more entries than the batch has files. *)
Theorem mergeBatch_heap_bound B (tempFiles : list run) (fuel : nat) :
  NoDup (fileIdx <$> Merge.h (Merge.loop B fuel (mergeStart tempFiles))) /\
  (fileEntryHeap.Len (Merge.h (Merge.loop B fuel (mergeStart tempFiles)))
     <= length tempFiles)%nat.
Proof.
  destruct (openAll_onePerFile tempFiles) as [Hlen Hinv].
  destruct (loop_onePerFile B fuel (mergeStart tempFiles)) as [_ H].
  { unfold mergeStart. cbn [Merge.readers Merge.h]. by rewrite Hlen. }
  unfold mergeStart in H at 1. cbn [Merge.readers] in H. rewrite Hlen in H.
  split; [apply H|]. by apply onePerFile_length.
Qed.

(** A record that [parseLine] reads back from its line as it is. *)
Definition wfRecord (r : record) : Prop :=
  containsTab r.1 = false /\ GoInt.inRange r.2.

Lemma flushRecords_wfRecord (T : Table.t) :
  wfTable T -> Forall wfRecord (flushRecords T).
Proof.
  intros HT. apply Forall_forall. intros [w c] Hin.
  apply elem_of_flushRecords in Hin. exact (HT w c Hin).
Qed.

Lemma parse_format_wfRecord (R : list record) :
  Forall wfRecord R -> parseLine <$> (formatRecord <$> R) = R.
Proof.
  induction 1 as [|[w c] R [Hw Hc] _ IH]; [done|].
  rewrite !fmap_cons, IH. f_equal.
  by apply RecordFacts.parseLine_formatRecord.
Qed.

(** The buffer over any sequence of records: what is written and what is
    still buffered always add up to the records read. *)
Lemma bufFold_any B (s : list record) (buf : Table.t) (outR : list record) :
  wfTable buf -> Forall wfRecord outR ->
  Forall (fun r : record => containsTab r.1 = false) s ->
  exists outR' buf',
    foldl (bufStep B) (buf, formatRecord <$> outR) s
      = (buf', formatRecord <$> outR') /\
    wfTable buf' /\ Forall wfRecord outR' /\
    sameTable (outR' ++ flushRecords buf') ((outR ++ flushRecords buf) ++ s).
Proof.
  revert buf outR. induction s as [|[w c] s IH]; intros buf outR Hb Ho Hs.
  { exists outR, buf. rewrite app_nil_r.
    split; [done|]. split; [done|]. split; [done|reflexivity]. }
  apply Forall_cons in Hs as [Hw Hs]. simpl in Hw.
  cbn [foldl]. unfold bufStep at 2. cbn [fst snd]. unfold Merge.makeRoom.
  case_decide as Hd.
  - unfold Merge.flushBufferToWriter, flushLines. rewrite <- fmap_app.
    destruct (IH (incr ∅ w c) (outR ++ flushRecords buf))
      as (outR' & buf' & E & Hb' & Ho' & HS).
    + by apply wfTable_incr; [apply wfTable_empty|].
    + apply Forall_app. split; [done|]. by apply flushRecords_wfRecord.
    + done.
    + exists outR', buf'. split; [done|]. split; [done|]. split; [done|].
      etrans; [exact HS|].
      rewrite cons_middle, app_assoc.
      apply sameTable_app; [|reflexivity]. apply sameTable_app; [reflexivity|].
      pose proof (flush_incr_sameTable ∅ w c wfTable_empty) as HF.
      by rewrite flushRecords_empty in HF.
  - destruct (IH (incr buf w c) outR) as (outR' & buf' & E & Hb' & Ho' & HS).
    + by apply wfTable_incr.
    + done.
    + done.
    + exists outR', buf'. split; [done|]. split; [done|]. split; [done|].
      etrans; [exact HS|].
      rewrite cons_middle, app_assoc, <- (app_assoc outR (flushRecords buf)).
      apply sameTable_app; [|reflexivity]. apply sameTable_app; [reflexivity|].
      by apply flush_incr_sameTable.
Qed.

(** Whatever the runs hold, [mergeBatch] writes the lines of well-formed
    records that add up, token by token, to the records it read. *)
Lemma mergeBatch_records B (files : list run) :
  exists R : list record,
    Merge.mergeBatch B files = formatRecord <$> R /\
    Forall wfRecord R /\
    sameTable R (recordsOf files).
Proof.
  destruct (mergeBatch_popSeq B files) as (s & Hp & _ & ->).
  assert (recOf <$> s ≡ₚ recordsOf files) as Hperm.
  { unfold recordsOf. by rewrite <- pending_records, Hp. }
  destruct (bufFold_any B (recOf <$> s) ∅ []) as (outR & buf & E & Hb & Ho & HS).
  - apply wfTable_empty.
  - constructor.
  - rewrite Hperm. apply recordsOf_noTab.
  - change (formatRecord <$> []) with (@nil string) in E.
    cbv zeta. rewrite E. cbn [fst snd].
    exists (outR ++ flushRecords buf). split; [|split].
    + unfold flushLines. by rewrite fmap_app.
    + apply Forall_app. split; [done|]. by apply flushRecords_wfRecord.
    + etrans; [exact HS|]. rewrite flushRecords_empty. simpl.
      by apply sameTable_Permutation.
Qed.

(** X8. [mergeBatch] conserves the counts of any runs, sorted or not, well
    formed or not: the merged run holds exactly the tokens the runs read
    back with, and for each token its counts add up (in [int] arithmetic)
    to the same sum as in the runs. *)
Theorem mergeBatch_conserves B (files : list run) (w : string) :
  (w ∈ tokensOf (Merge.mergeBatch B files) <-> w ∈ tokensOf (concat files)) /\
  GoInt.wrap (sumFor w (parseLine <$> Merge.mergeBatch B files))
    = GoInt.wrap (sumFor w (recordsOf files)).
Proof.
  destruct (mergeBatch_records B files) as (R & -> & Hwf & HS).
  rewrite !tokensOf_fst, (parse_format_wfRecord R Hwf).
  exact (proj1 (sameTable_iff _ _) HS w).
Qed.

(** X9. [mergeBatch] never writes a malformed line: whatever the runs
    hold, every line of the merged run is a token without a tab, a tab and
    the decimal text of an [int], and reads back as it was written. *)
Theorem mergeBatch_writes_records B (files : list run) :
  Forall (fun line => exists w c,
            containsTab w = false /\ GoInt.inRange c /\
            line = formatRecord (w, c) /\ parseLine line = (w, c))
         (Merge.mergeBatch B files) /\
  formatRecord <$> (parseLine <$> Merge.mergeBatch B files)
    = Merge.mergeBatch B files.
Proof.
  destruct (mergeBatch_records B files) as (R & -> & Hwf & _).
  split.
  - apply Forall_fmap. eapply Forall_impl; [exact Hwf|].
    intros [w c] [Hw Hc]. exists w, c. simpl in *.
    split; [done|]. split; [done|]. split; [done|].
    by apply RecordFacts.parseLine_formatRecord.
  - by rewrite (parse_format_wfRecord R Hwf).
Qed.

(** X10. A batch of one well-formed run is copied: [mergeBatch] writes the
    run it read, whatever the bound. *)
Theorem mergeBatch_single B (r : run) :
  wellFormedRun r -> Merge.mergeBatch B [r] = r.
Proof.
  intros Hr. apply wellFormedRun_canonical in Hr.
  rewrite mergeBatch_sorted.
  - rewrite recordsOf_singleton. symmetry. by apply canonical_flush.
  - constructor; [|constructor]. by apply canonical_sortedRun.
Qed.

Lemma mergeBatch_single_witness :
  Merge.mergeBatch 1 [[tabbed "a" "2"; tabbed "b" "-1"; tabbed "c" "0"]]
    = [tabbed "a" "2"; tabbed "b" "-1"; tabbed "c" "0"].
Proof.
  apply (mergeBatch_single 1 [tabbed "a" "2"; tabbed "b" "-1"; tabbed "c" "0"]).
  split.
  - vm_compute. repeat constructor.
  - vm_compute. reflexivity.
Defined.

(** X11. On runs whose tokens never decrease, the merged run has one
    record for each token of the runs and no other; its count is the sum of
    the counts of that token in the runs, wrapped to [int]. *)
Theorem mergeBatch_sums B (files : list run) (w : string) (c : Z) :
  Forall sortedRun files ->
  ((w, c) ∈ parseLine <$> Merge.mergeBatch B files <->
   w ∈ tokensOf (concat files) /\ c = GoInt.wrap (sumFor w (recordsOf files))).
Proof.
  intros Hf. rewrite (mergeBatch_sorted B files Hf).
  rewrite parse_flushLines
    by (apply wfTable_accumulate; [apply wfTable_empty|apply recordsOf_noTab]).
  rewrite elem_of_flushRecords, lookup_accumulate, tokensOf_fst.
  fold (recordsOf files).
  case_decide as Hin.
  - unfold get. rewrite lookup_empty. simpl. split.
    + intros [= <-]. done.
    + intros [_ ->]. done.
  - rewrite lookup_empty. split; [done|]. intros [Hw _]. done.
Qed.

Lemma mergeBatch_sums_witness :
  ("a", 5) ∈ parseLine <$> Merge.mergeBatch 1
     [[tabbed "a" "2"; tabbed "b" "1"]; [tabbed "a" "3"]].
Proof.
  apply (mergeBatch_sums 1 [[tabbed "a" "2"; tabbed "b" "1"]; [tabbed "a" "3"]]).
  - repeat constructor; vm_compute; intros; discriminate.
  - split; [|reflexivity]. vm_compute. left.
Defined.

(** ** [processInputFile] and [flushToTempFile] *)

Lemma length_flushToTempFile (T : Table.t) : length (flushToTempFile T) = size T.
Proof.
  unfold flushToTempFile, flushLines. by rewrite length_fmap, length_flushRecords.
Qed.

Lemma size_incr_pos (m : Table.t) w c : (0 < size (incr m w c))%nat.
Proof.
  destruct (decide (size (incr m w c) = 0%nat)) as [E|]; [|lia].
  apply map_size_empty_iff in E.
  pose proof (lookup_incr m w c w) as L. rewrite E, lookup_empty in L.
  rewrite decide_True in L by done. discriminate.
Qed.

Lemma size_incr_ge (m : Table.t) w c : (size m <= size (incr m w c))%nat.
Proof.
  unfold incr. destruct (m !! w) as [v|] eqn:E.
  - rewrite map_size_insert_Some by (by eexists). done.
  - rewrite map_size_insert_None by done. lia.
Qed.

Lemma size_countAll_ge (m : Table.t) (ws : list string) :
  (size m <= size (foldl (fun m w => incr m w 1) m ws))%nat.
Proof.
  revert m. induction ws as [|w ws IH]; intros m; [done|].
  cbn [foldl]. etrans; [apply (size_incr_ge m w 1)|apply IH].
Qed.

Section InputPhase.

Variable TrimSpace : string -> string.
Variable B : nat.

Local Abbreviation step := (Input.step TrimSpace B).
Local Abbreviation tokens := (Input.tokens TrimSpace).

(** The runs written so far are full and the table is not. *)
Definition fullRuns (st : Input.state) : Prop :=
  (size (Input.wordCount st) < B)%nat /\
  Forall (fun r : run => length r = B) (Input.tempFiles st).

Lemma step_fullRuns st line : fullRuns st -> fullRuns (step st line).
Proof.
  intros [Hsz Hfull]. unfold Input.step.
  case_decide as Hw; [done|].
  unfold Input.spill, Input.countWord. cbn [Input.wordCount Input.tempFiles].
  pose proof (size_incr_le (Input.wordCount st) (TrimSpace line) 1) as Hle.
  case_decide as Hd; split; cbn [Input.wordCount Input.tempFiles].
  - rewrite map_size_empty. lia.
  - apply Forall_app. split; [done|]. constructor; [|done].
    rewrite length_flushToTempFile. lia.
  - lia.
  - done.
Qed.

Lemma loop_fullRuns st lines : fullRuns st -> fullRuns (foldl step st lines).
Proof.
  revert st. induction lines as [|l lines IH]; intros st H; [done|].
  cbn [foldl]. by apply IH, step_fullRuns.
Qed.

(** X12. With a positive bound, every run the input phase writes holds at
    least one line and at most [MAX_WORDS_IN_MEMORY]; every run but the
    last holds exactly [MAX_WORDS_IN_MEMORY] lines. *)
Theorem run_sizes (lines : list string) (i : nat) (r : run) :
  (0 < B)%nat ->
  Input.processInputFile TrimSpace B lines !! i = Some r ->
  (1 <= length r <= B)%nat /\
  (S i < length (Input.processInputFile TrimSpace B lines) ->
   length r = B)%nat.
Proof.
  intros HB. unfold Input.processInputFile, Input.loop.
  destruct (loop_fullRuns (Input.mkState ∅ []) lines) as [Hsz Hfull].
  { split; [|constructor].
    cbn [Input.wordCount]. rewrite map_size_empty. exact HB. }
  set (st := foldl step (Input.mkState ∅ []) lines) in *.
  rewrite Forall_lookup in Hfull.
  case_decide as Hpos.
  - intros Hi. apply lookup_app_Some in Hi as [Hi|[Hge Hi]].
    + rewrite (Hfull i r Hi). split; [lia|done].
    + apply list_lookup_singleton_Some in Hi as [Hi <-].
      rewrite length_flushToTempFile, length_app. cbn [length].
      split; lia.
  - intros Hi. rewrite (Hfull i r Hi). split; [lia|done].
Qed.

Lemma loop_tokens st lines :
  foldl step st lines = foldl (Input.step (fun s => s) B) st (tokens lines).
Proof.
  revert st. induction lines as [|l lines IH]; intros st; [done|].
  rewrite (tokens_cons TrimSpace). cbn [foldl]. unfold Input.step at 2.
  case_decide as Hw; [apply IH|].
  cbn [foldl]. unfold Input.step at 3. cbv beta zeta.
  rewrite decide_False by done. apply IH.
Qed.

(** X13. The runs depend on the input only through its tokens, the trimmed
    lines that are not empty: blank lines and surrounding blanks change
    nothing. *)
Theorem processInputFile_tokens (lines : list string) :
  Input.processInputFile TrimSpace B lines
    = Input.processInputFile (fun s => s) B (tokens lines).
Proof.
  unfold Input.processInputFile, Input.loop. by rewrite loop_tokens.
Qed.

Lemma loop_few st lines :
  (size (foldl (fun m w => incr m w 1) (Input.wordCount st) (tokens lines)) < B)%nat ->
  foldl step st lines =
    Input.mkState
      (foldl (fun m w => incr m w 1) (Input.wordCount st) (tokens lines))
      (Input.tempFiles st).
Proof.
  revert st. induction lines as [|l lines IH]; intros st Hsz.
  { by destruct st. }
  rewrite (tokens_cons TrimSpace) in *. cbn [foldl]. unfold Input.step at 2.
  case_decide as Hw; [by apply IH|].
  cbn [foldl] in *.
  pose proof (size_countAll_ge (incr (Input.wordCount st) (TrimSpace l) 1)
                (tokens lines)) as Hge.
  unfold Input.spill. cbn [Input.countWord Input.wordCount].
  rewrite decide_False by lia.
  rewrite IH; cbn [Input.countWord Input.wordCount Input.tempFiles]; done.
Qed.

(** X14. When the input has fewer distinct tokens than the bound, the
    input phase never spills: it writes one run, the sorted flush of the
    table of a single in-memory pass. *)
Theorem few_distinct_tokens_one_run (lines : list string) :
  (size (singlePass TrimSpace lines) < B)%nat -> tokens lines <> [] ->
  Input.processInputFile TrimSpace B lines
    = [flushToTempFile (singlePass TrimSpace lines)].
Proof.
  intros Hsz Hne. unfold Input.processInputFile, Input.loop.
  rewrite loop_few by exact Hsz.
  cbn [Input.wordCount Input.tempFiles]. fold (singlePass TrimSpace lines).
  rewrite decide_True; [done|].
  unfold singlePass. destruct (tokens lines) as [|w ws]; [done|].
  cbn [foldl].
  pose proof (size_countAll_ge (incr ∅ w 1) ws).
  pose proof (size_incr_pos ∅ w 1). lia.
Qed.

(** The lines written and the keys of the table. *)
Definition linesHeld (st : Input.state) : nat :=
  (length (concat (Input.tempFiles st)) + size (Input.wordCount st))%nat.

Lemma step_linesHeld st line :
  Forall (fun r : run => r <> []) (Input.tempFiles st) ->
  Forall (fun r : run => r <> []) (Input.tempFiles (step st line)) /\
  (linesHeld (step st line) <= linesHeld st + length (tokens [line]))%nat.
Proof.
  intros Hne. rewrite (tokens_cons TrimSpace). unfold Input.step.
  case_decide as Hw.
  { split; [done|]. simpl. lia. }
  unfold Input.spill, Input.countWord, linesHeld.
  cbn [Input.wordCount Input.tempFiles].
  pose proof (size_incr_le (Input.wordCount st) (TrimSpace line) 1) as Hle.
  pose proof (size_incr_pos (Input.wordCount st) (TrimSpace line) 1) as Hpos.
  case_decide as Hd; cbn [Input.wordCount Input.tempFiles].
  - split.
    + apply Forall_app. split; [done|]. constructor; [|done].
      intros E. apply (f_equal length) in E.
      rewrite length_flushToTempFile in E. simpl in E. lia.
    + rewrite concat_app, length_app. cbn [concat]. rewrite app_nil_r.
      rewrite length_flushToTempFile, map_size_empty. simpl. lia.
  - split; [done|]. simpl. lia.
Qed.

Lemma loop_linesHeld st lines :
  Forall (fun r : run => r <> []) (Input.tempFiles st) ->
  Forall (fun r : run => r <> []) (Input.tempFiles (foldl step st lines)) /\
  (linesHeld (foldl step st lines) <= linesHeld st + length (tokens lines))%nat.
Proof.
  revert st. induction lines as [|l lines IH]; intros st Hne.
  { split; [done|]. simpl. lia. }
  cbn [foldl].
  destruct (step_linesHeld st l Hne) as [H1 H2].
  destruct (IH _ H1) as [H3 H4]. split; [done|].
  change (l :: lines) with ([l] ++ lines).
  unfold Input.tokens in *. rewrite fmap_app, filter_app, length_app. lia.
Qed.

Lemma length_concat_nonempty {A} (ls : list (list A)) :
  Forall (fun l => l <> []) ls -> (length ls <= length (concat ls))%nat.
Proof.
  induction 1 as [|l ls Hl _ IH]; [done|].
  cbn [concat length]. rewrite length_app.
  destruct l; [done|]. simpl. lia.
Qed.

Lemma processInputFile_lines (lines : list string) :
  Forall (fun r : run => r <> []) (Input.processInputFile TrimSpace B lines) /\
  (length (concat (Input.processInputFile TrimSpace B lines))
     <= length (tokens lines))%nat.
Proof.
  unfold Input.processInputFile, Input.loop.
  destruct (loop_linesHeld (Input.mkState ∅ []) lines) as [Hne Hle];
    [constructor|].
  unfold linesHeld in Hle. cbn [Input.wordCount Input.tempFiles] in Hle.
  rewrite map_size_empty in Hle. simpl in Hle.
  set (st := foldl step (Input.mkState ∅ []) lines) in *.
  case_decide as Hpos.
  - split.
    + apply Forall_app. split; [done|]. constructor; [|done].
      intros E. apply (f_equal length) in E.
      rewrite length_flushToTempFile in E. simpl in E. lia.
    + rewrite concat_app, length_app. cbn [concat]. rewrite app_nil_r.
      rewrite length_flushToTempFile. lia.
  - split; [done|]. lia.
Qed.

Lemma processInputFile_length_le (lines : list string) :
  (length (Input.processInputFile TrimSpace B lines) <= length (tokens lines))%nat.
Proof.
  destruct (processInputFile_lines lines) as [H1 H2].
  pose proof (length_concat_nonempty _ H1). lia.
Qed.

(** X15. The input phase never writes an empty run, and its runs hold
    together at most as many lines as the input has tokens; so it writes
    at most as many runs as there are tokens. *)
Theorem runs_le_tokens (lines : list string) :
  Forall (fun r : run => r <> []) (Input.processInputFile TrimSpace B lines) /\
  (length (concat (Input.processInputFile TrimSpace B lines))
     <= length (tokens lines))%nat /\
  (length (Input.processInputFile TrimSpace B lines)
     <= length (tokens lines))%nat.
Proof.
  destruct (processInputFile_lines lines) as [H1 H2].
  split; [done|]. split; [done|]. apply processInputFile_length_le.
Qed.

(** A token is enough for a run, tabs or not. *)
Lemma processInputFile_some_run (lines : list string) :
  tokens lines <> [] -> Input.processInputFile TrimSpace B lines <> [].
Proof.
  intros Hne. destruct (tokens lines) as [|k ks] eqn:E; [done|].
  destruct (processInputFile_covered TrimSpace B lines k) as (T & HT & _).
  { rewrite E. left. }
  intros E'. rewrite E' in HT. by apply elem_of_nil in HT.
Qed.

End InputPhase.

Lemma run_sizes_witness :
  (0 < 2)%nat /\
  Input.processInputFile Input.TrimSpaceASCII 2 ["a"; "b"; "a"; "c"; "b"] !! 1%nat
    = Some [tabbed "a" "1"; tabbed "c" "1"] /\
  (1 <= length [tabbed "a" "1"; tabbed "c" "1"] <= 2)%nat /\
  (2 < length (Input.processInputFile Input.TrimSpaceASCII 2
                 ["a"; "b"; "a"; "c"; "b"]) ->
   length [tabbed "a" "1"; tabbed "c" "1"] = 2)%nat.
Proof.
  split; [lia|]. split; [vm_compute; reflexivity|].
  apply (run_sizes Input.TrimSpaceASCII 2 ["a"; "b"; "a"; "c"; "b"] 1).
  - lia.
  - vm_compute. reflexivity.
Defined.

Lemma few_distinct_tokens_one_run_witness :
  (size (singlePass Input.TrimSpaceASCII ["b"; "a"; "b"; "b"; "a"]) < 3)%nat /\
  Input.processInputFile Input.TrimSpaceASCII 3 ["b"; "a"; "b"; "b"; "a"]
    = [[tabbed "a" "2"; tabbed "b" "3"]].
Proof.
  split; [vm_compute; lia|].
  apply (few_distinct_tokens_one_run Input.TrimSpaceASCII 3
           ["b"; "a"; "b"; "b"; "a"]).
  - vm_compute. lia.
  - discriminate.
Defined.

(** X16. A flushed table reads back as it was: when no key holds a tab and
    the counts are [int]s, the lines of the run parse to the bindings of the
    table, one line for each key, and counting them again gives the
    table. *)
Theorem flushToTempFile_roundtrip (T : Table.t) :
  wfTable T ->
  length (flushToTempFile T) = size T /\
  (forall w c, (w, c) ∈ parseLine <$> flushToTempFile T <-> T !! w = Some c) /\
  accumulate ∅ (parseLine <$> flushToTempFile T) = T.
Proof.
  intros HT. split; [apply length_flushToTempFile|].
  unfold flushToTempFile. rewrite (parse_flushLines T HT). split.
  - intros w c. apply elem_of_flushRecords.
  - apply accumulate_flushRecords. intros w c H. exact (proj2 (HT w c H)).
Qed.

Lemma flushToTempFile_roundtrip_witness :
  flushToTempFile (accumulate ∅ [("b", -3); ("a", 2)])
    = [tabbed "a" "2"; tabbed "b" "-3"] /\
  accumulate ∅ (parseLine <$> flushToTempFile (accumulate ∅ [("b", -3); ("a", 2)]))
    = accumulate ∅ [("b", -3); ("a", 2)].
Proof.
  split; [vm_compute; reflexivity|].
  apply (flushToTempFile_roundtrip (accumulate ∅ [("b", -3); ("a", 2)])).
  apply wfTable_accumulate; [apply wfTable_empty|].
  repeat constructor.
Defined.

(** ** [mergeInBatches] *)

Lemma roundFrom_ceil B fuel (files : list run) :
  (1 <= B)%nat -> (length files <= fuel)%nat ->
  length (roundFrom B fuel files) = ((length files + B - 1) / B)%nat.
Proof.
  intros HB. revert files. induction fuel as [|f IH]; intros files Hl.
  - destruct files; [|simpl in Hl; lia]. cbn [roundFrom length].
    symmetry. apply Nat.div_small. lia.
  - destruct files as [|a l].
    + rewrite roundFrom_nil. cbn [length]. symmetry. apply Nat.div_small. lia.
    + rewrite roundFrom_cons. cbn [length] in *.
      rewrite IH by (rewrite length_drop; cbn [length]; lia).
      rewrite length_drop. cbn [length].
      set (n := length l) in *.
      replace (S n + B - 1)%nat with (n + 1 * B)%nat by lia.
      rewrite Nat.div_add by lia.
      destruct (decide (S n <= B)%nat).
      * replace (S n - B + B - 1)%nat with (B - 1)%nat by lia.
        rewrite !Nat.div_small by lia. lia.
      * replace (S n - B + B - 1)%nat with n by lia. lia.
Qed.

Lemma round_length_aux B (files : list run) :
  (1 <= B)%nat ->
  length (round B files) = ((length files + B - 1) / B)%nat.
Proof. intros HB. unfold round. by apply roundFrom_ceil. Qed.

(** X17. With a positive bound a round merges the runs in batches of
    [MAX_WORDS_IN_MEMORY], the last one maybe smaller: it leaves the number
    of runs divided by the bound, rounded up. *)
Theorem round_length B (files : list run) :
  (1 <= B)%nat ->
  length (round B files) = ((length files + B - 1) / B)%nat.
Proof. intros HB. unfold round. by apply roundFrom_ceil. Qed.

Lemma round_length_witness :
  length (round 2 [["a"]; ["b"]; ["c"]; ["d"]; ["e"]]) = 3%nat.
Proof.
  apply (round_length 2 [["a"]; ["b"]; ["c"]; ["d"]; ["e"]]). lia.
Defined.

Lemma pow_pos B n : (1 <= B -> 1 <= B ^ n)%nat.
Proof. intros HB. pose proof (Nat.pow_nonzero B n). lia. Qed.

Lemma round_pow B f (files : list run) :
  (1 <= B)%nat ->
  (B ^ f < length (round B files) <-> B ^ S f < length files)%nat.
Proof.
  intros HB. rewrite round_length_aux by done.
  rewrite Nat.pow_succ_r'. split.
  - intros H. destruct (decide (B * B ^ f < length files)%nat); [done|].
    assert ((length files + B - 1) / B < B ^ f + 1)%nat; [|lia].
    apply Nat.Div0.div_lt_upper_bound; lia.
  - intros H.
    assert (B ^ f + 1 <= (length files + B - 1) / B)%nat; [|lia].
    apply Nat.div_le_lower_bound; lia.
Qed.

(** How [mergeInBatches] ends, for a positive bound. *)
Lemma mergeInBatches_outcome B fuel (files : list run) :
  (1 <= B)%nat ->
  (mergeInBatches B fuel files = Panics <-> files = []) /\
  (mergeInBatches B fuel files = OutOfFuel <-> B ^ fuel < length files)%nat.
Proof.
  intros HB. revert files. induction fuel as [|f IH]; intros files.
  - cbn [mergeInBatches]. rewrite Nat.pow_0_r. case_decide as Hl.
    + split; [|done]. split; [done|]. intros ->. simpl in Hl. lia.
    + destruct files as [|x [|y files]]; [| |simpl in Hl; lia].
      * split; [done|]. split; [done|]. cbn [length]. lia.
      * split; (split; [done|]); [done|]. cbn [length]. lia.
  - pose proof (pow_pos B (S f) HB) as Hp.
    destruct (decide (1 < length files)%nat) as [Hl|Hl].
    + rewrite mergeInBatches_long by done.
      destruct (IH (round B files)) as [H1 H2].
      rewrite H1, H2, round_pow by done. split; [|done].
      split.
      * intros E. apply (f_equal length) in E.
        rewrite round_length_aux in E by done. cbn [length] in E.
        assert (1 <= (length files + B - 1) / B)%nat; [|lia].
        apply Nat.div_le_lower_bound; lia.
      * intros ->. simpl in Hl. lia.
    + rewrite mergeInBatches_short by lia.
      destruct files as [|x [|y files]]; [| |simpl in Hl; lia].
      * split; [done|]. split; [done|]. cbn [length]. lia.
      * split; (split; [done|]); [done|]. cbn [length]. lia.
Qed.

(** X18. With a positive bound the loop of [mergeInBatches] is still
    running after [fuel] rounds exactly when there are more than
    [MAX_WORDS_IN_MEMORY ^ fuel] runs: the number of rounds is the
    logarithm of the number of runs in base [MAX_WORDS_IN_MEMORY], and with
    bound 1 no number of rounds is enough for two runs. *)
Theorem rounds_needed B fuel (files : list run) :
  (1 <= B)%nat ->
  (mergeInBatches B fuel files = OutOfFuel <-> B ^ fuel < length files)%nat.
Proof. intros HB. by apply mergeInBatches_outcome. Qed.

Lemma rounds_needed_witness :
  mergeInBatches 2 1 [["a"]; ["b"]; ["c"]] = OutOfFuel.
Proof.
  apply (rounds_needed 2 1 [["a"]; ["b"]; ["c"]]); [lia|].
  vm_compute. lia.
Defined.

(** X19. With a positive bound [mergeInBatches] indexes out of range only
    when it is called without a run; called with at least one run, and
    given the rounds it needs, it returns. *)
Theorem mergeInBatches_panics_only_empty B fuel (files : list run) :
  (1 <= B)%nat ->
  (mergeInBatches B fuel files = Panics <-> files = []) /\
  (files <> [] -> (length files <= B ^ fuel)%nat ->
   exists out, mergeInBatches B fuel files = Returns out).
Proof.
  intros HB. destruct (mergeInBatches_outcome B fuel files HB) as [H1 H2].
  split; [done|]. intros Hne Hl.
  destruct (mergeInBatches B fuel files) as [out| |].
  - by exists out.
  - destruct Hne. by apply H1.
  - assert (B ^ fuel < length files)%nat by (by apply H2). lia.
Qed.

Lemma mergeInBatches_panics_only_empty_witness :
  exists out, mergeInBatches 2 2 [["a"]; ["b"]; ["c"]] = Returns out.
Proof.
  apply (mergeInBatches_panics_only_empty 2 2 [["a"]; ["b"]; ["c"]]).
  - lia.
  - discriminate.
  - vm_compute. lia.
Defined.

(** X20. When there are at least two runs and no more than the bound, one
    round is enough: the result is the merge of all the runs in one
    batch. *)
Theorem one_batch B fuel (files : list run) :
  (1 < length files <= B)%nat ->
  mergeInBatches B (S fuel) files = Returns (Merge.mergeBatch B files).
Proof.
  intros [H1 H2]. rewrite mergeInBatches_long by done.
  unfold round. destruct files as [|x files]; [simpl in H1; lia|].
  cbn [length]. rewrite roundFrom_cons.
  rewrite take_ge, drop_ge by done. rewrite roundFrom_nil.
  by rewrite mergeInBatches_short, first_singleton.
Qed.

Lemma one_batch_witness :
  mergeInBatches 3 1 [[tabbed "a" "1"]; [tabbed "a" "2"]; [tabbed "b" "1"]]
    = Returns [tabbed "a" "3"; tabbed "b" "1"].
Proof.
  change (Returns [tabbed "a" "3"; tabbed "b" "1"])
    with (Returns (Merge.mergeBatch 3
            [[tabbed "a" "1"]; [tabbed "a" "2"]; [tabbed "b" "1"]])).
  apply (one_batch 3 0 [[tabbed "a" "1"]; [tabbed "a" "2"]; [tabbed "b" "1"]]).
  simpl. lia.
Defined.


(** ** The whole program *)









(** X24. With a positive bound and at least one token, whatever the tokens
    hold, the program neither panics nor runs forever: it returns an output
    once [MAX_WORDS_IN_MEMORY ^ fuel] reaches the number of tokens. *)
Theorem wordcount_always_returns (TrimSpace : string -> string) B fuel lines :
  (1 <= B)%nat ->
  Input.tokens TrimSpace lines <> [] ->
  (length (Input.tokens TrimSpace lines) <= B ^ fuel)%nat ->
  exists out, wordcount TrimSpace B fuel lines = Returns out.
Proof.
  intros HB Hne Hl. unfold wordcount.
  pose proof (processInputFile_some_run TrimSpace B lines Hne) as Hr.
  pose proof (processInputFile_length_le TrimSpace B lines) as Hle.
  destruct (mergeInBatches_outcome B fuel
              (Input.processInputFile TrimSpace B lines) HB) as [H1 H2].
  destruct (mergeInBatches B fuel (Input.processInputFile TrimSpace B lines))
    as [out| |].
  - by exists out.
  - destruct Hr. by apply H1.
  - assert (B ^ fuel < length (Input.processInputFile TrimSpace B lines))%nat
      by (by apply H2). lia.
Qed.

Lemma wordcount_always_returns_witness :
  exists out,
    wordcount Input.TrimSpaceASCII 2 2 [tabbed "a" "b"; "c"; "d"] = Returns out.
Proof.
  apply (wordcount_always_returns Input.TrimSpaceASCII 2 2
           [tabbed "a" "b"; "c"; "d"]).
  - lia.
  - discriminate.
  - vm_compute. lia.
Defined.

(** ** [main] and its command line *)

Module CommandLine.

(** [main], from the command line: [Args] is [os.Args] and [Open path] the
    lines of the file at [path], if [os.Open] succeeds.  [None] is
    [os.Exit(1)]; the error of [os.Open] comes back from [processInputFile]
    and [main] panics with it. *)
Definition main (TrimSpace : string -> string) (Args : list string)
    (Open : string -> option (list string)) (fuel : nat)
    : option (outcome run) :=
  if decide (length Args < 3)%nat then None
  else
    match Args !! 1%nat, Args !! 2%nat with
    | Some arg, Some inputFile =>
        match Atoi arg with
        | (n, None) =>
            if decide (n <= 0) then None
            else
              match Open inputFile with
              | Some lines => Some (wordcount TrimSpace (Z.to_nat n) fuel lines)
              | None => Some Panics
              end
        | (_, Some _) => None
        end
    | _, _ => None
    end.

End CommandLine.

Lemma Atoi_formatInt_outside z :
  ~ GoInt.inRange z -> (Atoi (formatInt z)).2 = Some ErrRange.
Proof.
  unfold GoInt.inRange, GoInt.minInt, GoInt.maxInt. intros Hz. unfold formatInt.
  case_decide as Hneg.
  - unfold Atoi. rewrite decide_True by done.
    destruct (RecordFacts.digitsAux_head (Z.to_nat (Z.log2 (- z))) (- z) EmptyString)
      as (d & r & Hd & E); [lia|].
    fold (formatUint (- z)) in E.
    pose proof (RecordFacts.parseDigits_formatUint (- z) ltac:(lia)) as Hp.
    unfold parseBody. rewrite E in *. rewrite Hp. by rewrite decide_True by lia.
  - destruct (RecordFacts.digitsAux_head (Z.to_nat (Z.log2 z)) z EmptyString)
      as (d & r & Hd & E); [lia|].
    fold (formatUint z) in E.
    pose proof (RecordFacts.parseDigits_formatUint z ltac:(lia)) as Hp.
    rewrite E in *. unfold Atoi, parseBody.
    destruct (RecordFacts.digitChar_not_sign d Hd) as [H1 H2].
    rewrite !decide_False by done. rewrite Hp.
    by rewrite decide_True by lia.
Qed.

(** X25. Given the decimal text of an [int] from 1 up as its first
    argument, [main] runs the two phases with that bound on the lines of
    the file named by its second argument, and ignores further arguments;
    when the file cannot be opened it panics. *)
Theorem main_runs (TrimSpace : string -> string) prog n path rest Open fuel :
  1 <= n <= GoInt.maxInt ->
  CommandLine.main TrimSpace (prog :: formatInt n :: path :: rest) Open fuel =
    match Open path with
    | Some lines => Some (wordcount TrimSpace (Z.to_nat n) fuel lines)
    | None => Some Panics
    end.
Proof.
  intros Hn. unfold CommandLine.main.
  rewrite decide_False by (cbn [length]; lia).
  cbn [lookup list_lookup].
  rewrite RecordFacts.Atoi_formatInt
    by (unfold GoInt.inRange, GoInt.minInt, GoInt.maxInt in *; lia).
  by rewrite decide_False by lia.
Qed.

Lemma main_runs_witness :
  CommandLine.main Input.TrimSpaceASCII ["wordcount"; "2"; "in.txt"]
    (fun path => if decide (path = "in.txt") then Some ["a"; "b"; "a"] else None) 1
    = Some (Returns [tabbed "a" "2"; tabbed "b" "1"]) /\
  CommandLine.main Input.TrimSpaceASCII ["wordcount"; "2"; "missing.txt"]
    (fun path => if decide (path = "in.txt") then Some ["a"; "b"; "a"] else None) 1
    = Some Panics.
Proof.
  split; [|vm_compute; reflexivity].
  change (Some (Returns [tabbed "a" "2"; tabbed "b" "1"]))
    with (match (fun path => if decide (path = "in.txt")
                             then Some ["a"; "b"; "a"] else None) "in.txt" with
          | Some lines => Some (wordcount Input.TrimSpaceASCII (Z.to_nat 2) 1 lines)
          | None => Some Panics
          end).
  apply (main_runs Input.TrimSpaceASCII "wordcount" 2 "in.txt" []).
  unfold GoInt.maxInt. lia.
Defined.

(** X26. [main] exits with status 1, before it opens any file, when it has
    fewer than two arguments or when the first one is not a number; and the
    decimal text of an integer is accepted as the bound exactly when the
    integer is positive and fits an [int]. *)
Theorem main_checks_arguments (TrimSpace : string -> string)
    (Open : string -> option (list string)) (fuel : nat) :
  (forall Args, (length Args < 3)%nat ->
     CommandLine.main TrimSpace Args Open fuel = None) /\
  (forall Args arg, Args !! 1%nat = Some arg -> isNumeric arg = false ->
     CommandLine.main TrimSpace Args Open fuel = None) /\
  (forall prog n path rest,
     CommandLine.main TrimSpace (prog :: formatInt n :: path :: rest) Open fuel
       <> None
     <-> 1 <= n <= GoInt.maxInt).
Proof.
  split; [|split].
  - intros Args Hl. unfold CommandLine.main. by rewrite decide_True.
  - intros Args arg Ha Hn. unfold CommandLine.main.
    case_decide; [done|]. rewrite Ha.
    destruct (Args !! 2%nat); [|done].
    by rewrite (RecordFacts.Atoi_nonNumeric arg Hn).
  - intros prog n path rest. unfold CommandLine.main.
    rewrite decide_False by (cbn [length]; lia).
    cbn [lookup list_lookup].
    destruct (decide (GoInt.inRange n)) as [Hr|Hr].
    + rewrite (RecordFacts.Atoi_formatInt n Hr).
      unfold GoInt.inRange in Hr.
      case_decide as Hd.
      * split; [done|]. lia.
      * split; [lia|]. intros _. by destruct (Open path).
    + pose proof (Atoi_formatInt_outside n Hr) as He.
      destruct (Atoi (formatInt n)) as [m [e|]]; [|done].
      split; [done|]. intros H. destruct Hr.
      unfold GoInt.inRange, GoInt.minInt, GoInt.maxInt in *. lia.
Qed.

(** ** [parseLine] *)

(** X27. [parseLine] cuts a line at its first tab: the token is the text
    before it and holds no tab, and the count is what [Atoi] reads in all
    the text after it, further tabs included. *)
Theorem parseLine_first_tab (line : string) :
  containsTab line = true ->
  exists field,
    line = tabbed (parseLine line).1 field /\
    containsTab (parseLine line).1 = false /\
    (parseLine line).2 = (Atoi field).1.
Proof.
  intros Ht. unfold parseLine, SplitN2.
  destruct (cutTab line) as [[a b]|] eqn:E.
  - apply RecordFacts.cutTab_Some in E as [-> Ha].
    exists b. done.
  - apply RecordFacts.cutTab_None in E. congruence.
Qed.

Lemma parseLine_first_tab_witness :
  exists field,
    tabbed "a" (tabbed "7" "x") = tabbed (parseLine (tabbed "a" (tabbed "7" "x"))).1 field /\
    containsTab (parseLine (tabbed "a" (tabbed "7" "x"))).1 = false /\
    (parseLine (tabbed "a" (tabbed "7" "x"))).2 = (Atoi field).1.
Proof.
  apply (parseLine_first_tab (tabbed "a" (tabbed "7" "x"))). reflexivity.
Defined.
